(** * BoundedBuffer: a blocking, capacity-limited FIFO queue (buffer.cpp)

    The development has two layers.

    - [Module Buffer]: the data members [q_] and [cap_] of
      [BoundedBuffer<T>] and its member functions [size], [push] and [pop]
      as atomic, guarded operations.  A call whose [wait] predicate is false
      blocks; a blocked call is a computation without a result ([None]).
    - [Module Threads]: the same member functions line by line, run by any
      number of threads under an arbitrary scheduler, with the two mutexes.
      Every step of that machine either leaves the queue alone or is one of
      the atomic operations of [Module Buffer] (theorem [step_refines]).
    - [Module Monitor]: the threaded machine once more, now with the two
      condition variables: who is asleep in [wait] and whom a [notify_all]
      wakes.
    - [Module Clients]: the callers of the buffer, [producer],
      [producer_done], [consumer] and the threads of [main].

    An element of [std::queue<std::optional<T>>] is an [option T]:
    [Some x] is a payload, [None] is [std::nullopt], the end-of-stream
    marker.  A [size_t] is an [N]; the code only compares and never does
    arithmetic on it, so no wrap-around is involved. *)

From Stdlib Require Import List NArith ZArith Lia Bool Arith PeanoNat.
From Stdlib Require Import Permutation.
Import ListNotations.

Set Implicit Arguments.

(** ** The blocking monad: state passing, [None] for a call that blocks *)

Definition Blocking (S A : Type) : Type := S -> option (A * S).

Definition ret {S A : Type} (a : A) : Blocking S A :=
  fun s => Some (a, s).

Definition bind {S A B : Type} (m : Blocking S A) (k : A -> Blocking S B)
  : Blocking S B :=
  fun s => match m s with
           | Some (a, s') => k a s'
           | None => None
           end.

Declare Scope blocking_scope.
Delimit Scope blocking_scope with blocking.
Notation "x <- m ;; k" := (bind m (fun x => k))
  (at level 61, m at next level, right associativity) : blocking_scope.
Notation "m ;; k" := (bind m (fun _ => k))
  (at level 61, right associativity) : blocking_scope.

(** [std::condition_variable::wait(lk, pred)]: proceeds when [pred] holds,
    has no result while it does not. *)
Definition wait {S : Type} (pred : S -> bool) : Blocking S unit :=
  fun s => if pred s then Some (tt, s) else None.

Module Buffer.
Section WithPayload.

Variable T : Type.

(** A slot of the queue: [std::optional<T>]. *)
Definition slot : Type := option T.

(** The data members of [BoundedBuffer<T>].  The two mutexes and the two
    condition variables carry no data; they live in the configuration of
    [Module Threads]. *)
Record BoundedBuffer : Type := mkBuffer {
  q_ : list slot;   (* std::queue: front is the head of the list *)
  cap_ : N          (* size_t *)
}.

(** [BoundedBuffer(size_t cap) : cap_(cap) {}] *)
Definition construct (cap : N) : BoundedBuffer :=
  {| q_ := []; cap_ := cap |}.

(** The [std::queue] primitives the member functions call. *)
Definition q_size (b : BoundedBuffer) : N := N.of_nat (length (q_ b)).

Definition q_empty (b : BoundedBuffer) : bool :=
  match q_ b with [] => true | _ :: _ => false end.

Definition q_push (data : slot) : Blocking BoundedBuffer unit :=
  fun b => Some (tt, {| q_ := q_ b ++ [data]; cap_ := cap_ b |}).

(** [q_.front()] and [q_.pop()] are only defined on a non-empty queue. *)
Definition q_front : Blocking BoundedBuffer slot :=
  fun b => match q_ b with
           | [] => None
           | d :: _ => Some (d, b)
           end.

Definition q_pop : Blocking BoundedBuffer unit :=
  fun b => match q_ b with
           | [] => None
           | _ :: rest => Some (tt, {| q_ := rest; cap_ := cap_ b |})
           end.

(** [size_t size() { return q_.size(); }] *)
Definition size : Blocking BoundedBuffer N :=
  fun b => Some (q_size b, b).

(** [void push(const std::optional<T> &data)] *)
Definition push (data : slot) : Blocking BoundedBuffer unit :=
  (wait (fun b => q_size b <? cap_ b)%N ;;
   q_push data)%blocking.

(** [std::optional<T> pop()] *)
Definition pop : Blocking BoundedBuffer slot :=
  (wait (fun b => negb (q_empty b)) ;;
   data <- q_front ;;
   q_pop ;;
   ret data)%blocking.

(** [producer_done]: [buf->push(std::nullopt)]. *)
Definition producer_done : Blocking BoundedBuffer unit :=
  push None.

(** The occupancy: the number of elements resident in the queue. *)
Definition occupancy (b : BoundedBuffer) : N := q_size b.

(** *** Runs of atomic steps *)

Inductive op : Type :=
| Push (data : slot)
| Pop.

(** One step: the popped value, if the step is a pop. *)
Definition step (o : op) (b : BoundedBuffer)
  : option (option slot * BoundedBuffer) :=
  match o with
  | Push d => match push d b with
              | Some (_, b') => Some (None, b')
              | None => None
              end
  | Pop => match pop b with
           | Some (d, b') => Some (Some d, b')
           | None => None
           end
  end.

(** A run returns the popped values in the order of the pops and the final
    buffer; it has no result when one of its steps is not enabled. *)
Fixpoint run (ops : list op) (b : BoundedBuffer)
  : option (list slot * BoundedBuffer) :=
  match ops with
  | [] => Some ([], b)
  | o :: rest =>
      match step o b with
      | None => None
      | Some (out, b') =>
          match run rest b' with
          | None => None
          | Some (outs, b'') =>
              Some (match out with Some d => d :: outs | None => outs end, b'')
          end
      end
  end.

(** The values pushed by a list of steps, in push order. *)
Fixpoint pushed (ops : list op) : list slot :=
  match ops with
  | [] => []
  | Push d :: rest => d :: pushed rest
  | Pop :: rest => pushed rest
  end.

Fixpoint pops (ops : list op) : nat :=
  match ops with
  | [] => 0
  | Push _ :: rest => pops rest
  | Pop :: rest => S (pops rest)
  end.

Definition is_payload (d : slot) : bool :=
  match d with Some _ => true | None => false end.

Definition is_eos (d : slot) : bool := negb (is_payload d).

Definition count_payloads (l : list slot) : nat := length (filter is_payload l).
Definition count_eos (l : list slot) : nat := length (filter is_eos l).

(** Calling a member function [n] times in a row. *)
Fixpoint times (n : nat) (m : Blocking BoundedBuffer unit)
  : Blocking BoundedBuffer unit :=
  match n with
  | O => ret tt
  | S k => (m ;; times k m)%blocking
  end.

(** The specification's [push_end_of_stream], in its own words: enqueue a
    single end-of-stream marker, under the blocking rule of [push]
    (occupancy below capacity).  It is compared with [producer_done]. *)
Definition push_end_of_stream : Blocking BoundedBuffer unit :=
  fun b =>
    if (occupancy b <? cap_ b)%N
    then Some (tt, {| q_ := q_ b ++ [None]; cap_ := cap_ b |})
    else None.

(** *** Steps tagged with the thread that takes them *)

Definition schedule : Type := list (nat * op).

Definition steps_of (sch : schedule) : list op := map snd sch.

Definition steps_by (t : nat) (sch : schedule) : list op :=
  map snd (filter (fun e => Nat.eqb (fst e) t) sch).

(** The payloads a single step pushes: one or none. *)
Definition payload_weight (o : op) : nat :=
  match o with
  | Push (Some _) => 1
  | _ => 0
  end.

(** The number of payloads thread [t] pushes in a schedule. *)
Definition payloads_pushed_by (t : nat) (sch : schedule) : nat :=
  count_payloads (pushed (steps_by t sch)).

(** Thread 0 runs [prod], thread 1 runs [cons]: the ways their steps can
    interleave. *)
Inductive interleaving : list op -> list op -> list op -> Prop :=
| interleaving_nil : interleaving [] [] []
| interleaving_left o prod cons ops :
    interleaving prod cons ops -> interleaving (o :: prod) cons (o :: ops)
| interleaving_right o prod cons ops :
    interleaving prod cons ops -> interleaving prod (o :: cons) (o :: ops).

End WithPayload.

Arguments construct {T} cap.
Arguments Pop {T}.
Arguments is_payload {T} d.
Arguments is_eos {T} d.
Arguments count_payloads {T} l.
Arguments count_eos {T} l.
Arguments pop {T}.
Arguments size {T}.
Arguments producer_done {T}.
Arguments q_front {T}.
Arguments q_pop {T}.
Arguments push_end_of_stream {T}.

(** The clients of the buffer in [main] use [BoundedBuffer<int>]. *)

(** [producer]: [for (int i = 0; i < 32; i++) buf->push(i);] *)
Definition producer : list (op Z) :=
  map (fun i => Push (Some (Z.of_nat i))) (seq 0 32).

(** The scenario with capacity two: one producer pushes 1, 2, 3 and one
    consumer pops three times. *)
Definition scenario_producer : list (op Z) :=
  [Push (Some 1%Z); Push (Some 2%Z); Push (Some 3%Z)].

Definition scenario_consumer : list (op Z) := [Pop; Pop; Pop].

End Buffer.

(** ** The member functions line by line, run by threads

    Every thread is either outside the buffer ([Idle]) or at one line of
    [push] or [pop].  The scheduler picks a thread and lets it call a member
    function or execute its current line.  A line that cannot execute
    (a mutex that is taken) gives no step.

    A thread inside [wait] may wake up at any moment ([notify_all] or a
    spurious wake-up, which [std::condition_variable::wait] permits), so the
    two [notify_all] lines do not change which steps are possible; they are
    steps without effect. *)

Module Threads.
Import Buffer.
Section WithPayload.

Variable T : Type.

Definition tid : Type := nat.

Inductive call : Type :=
| CallPush (data : slot T)
| CallPop.

Inductive pc : Type :=
| Idle
| PushLock (data : slot T)      (* line 24: unique_lock lk(producer_mtx_) *)
| PushWait (data : slot T)      (* line 26: lock held, predicate evaluated *)
| PushBlocked (data : slot T)   (* line 26: inside wait, lock released *)
| PushAppend (data : slot T)    (* line 27: q_.push(data) *)
| PushUnlock (data : slot T)    (* line 28: lk.unlock() *)
| PushNotify (data : slot T)    (* line 30: consumer_cv_.notify_all() *)
| PopLock                       (* line 34: unique_lock lk(consumer_mtx_) *)
| PopWait                       (* line 36: lock held, predicate evaluated *)
| PopBlocked                    (* line 36: inside wait, lock released *)
| PopFront                      (* line 37: auto data = q_.front() *)
| PopRemove (data : slot T)     (* line 38: q_.pop() *)
| PopUnlock (data : slot T)     (* line 39: lk.unlock() *)
| PopNotify (data : slot T).    (* lines 41-42: notify_all, return data *)

Record config : Type := mkConfig {
  buf : BoundedBuffer T;
  producer_mtx_ : option tid;   (* the thread that holds the mutex *)
  consumer_mtx_ : option tid;
  pcs : tid -> pc
}.

Definition init (cap : N) : config :=
  {| buf := construct cap;
     producer_mtx_ := None;
     consumer_mtx_ := None;
     pcs := fun _ => Idle |}.

Definition upd (f : tid -> pc) (t : tid) (p : pc) : tid -> pc :=
  fun t' => if Nat.eqb t' t then p else f t'.

Definition goto (s : config) (t : tid) (p : pc) : config :=
  {| buf := buf s; producer_mtx_ := producer_mtx_ s;
     consumer_mtx_ := consumer_mtx_ s; pcs := upd (pcs s) t p |}.

Definition set_buf (s : config) (b : BoundedBuffer T) : config :=
  {| buf := b; producer_mtx_ := producer_mtx_ s;
     consumer_mtx_ := consumer_mtx_ s; pcs := pcs s |}.

Definition set_producer_mtx (s : config) (m : option tid) : config :=
  {| buf := buf s; producer_mtx_ := m;
     consumer_mtx_ := consumer_mtx_ s; pcs := pcs s |}.

Definition set_consumer_mtx (s : config) (m : option tid) : config :=
  {| buf := buf s; producer_mtx_ := producer_mtx_ s;
     consumer_mtx_ := m; pcs := pcs s |}.

(** What a step does to the queue. *)
Inductive label : Type :=
| Silent
| Pushed (data : slot T)
| Popped (data : slot T).

Inductive action : Type :=
| Invoke (t : tid) (c : call)   (* an idle thread calls push or pop *)
| Advance (t : tid).            (* a thread executes its current line *)

Definition invoke (t : tid) (c : call) (s : config)
  : option (label * config) :=
  match pcs s t with
  | Idle =>
      Some (Silent, goto s t (match c with
                              | CallPush d => PushLock d
                              | CallPop => PopLock
                              end))
  | _ => None
  end.

Definition advance (t : tid) (s : config) : option (label * config) :=
  match pcs s t with
  | Idle => None
  | PushLock d =>
      match producer_mtx_ s with
      | None => Some (Silent, goto (set_producer_mtx s (Some t)) t (PushWait d))
      | Some _ => None
      end
  | PushWait d =>
      if (q_size (buf s) <? cap_ (buf s))%N
      then Some (Silent, goto s t (PushAppend d))
      else Some (Silent, goto (set_producer_mtx s None) t (PushBlocked d))
  | PushBlocked d =>
      match producer_mtx_ s with
      | None => Some (Silent, goto (set_producer_mtx s (Some t)) t (PushWait d))
      | Some _ => None
      end
  | PushAppend d =>
      match q_push d (buf s) with
      | Some (_, b') => Some (Pushed d, goto (set_buf s b') t (PushUnlock d))
      | None => None
      end
  | PushUnlock d =>
      Some (Silent, goto (set_producer_mtx s None) t (PushNotify d))
  | PushNotify d => Some (Silent, goto s t Idle)
  | PopLock =>
      match consumer_mtx_ s with
      | None => Some (Silent, goto (set_consumer_mtx s (Some t)) t PopWait)
      | Some _ => None
      end
  | PopWait =>
      if negb (q_empty (buf s))
      then Some (Silent, goto s t PopFront)
      else Some (Silent, goto (set_consumer_mtx s None) t PopBlocked)
  | PopBlocked =>
      match consumer_mtx_ s with
      | None => Some (Silent, goto (set_consumer_mtx s (Some t)) t PopWait)
      | Some _ => None
      end
  | PopFront =>
      match q_front (buf s) with
      | Some (d, _) => Some (Silent, goto s t (PopRemove d))
      | None => None
      end
  | PopRemove d =>
      match q_pop (buf s) with
      | Some (_, b') => Some (Popped d, goto (set_buf s b') t (PopUnlock d))
      | None => None
      end
  | PopUnlock d =>
      Some (Silent, goto (set_consumer_mtx s None) t (PopNotify d))
  | PopNotify d => Some (Silent, goto s t Idle)
  end.

Definition thread_step (a : action) (s : config) : option (label * config) :=
  match a with
  | Invoke t c => invoke t c s
  | Advance t => advance t s
  end.

(** A schedule is a list of actions; its execution yields the labels of
    its steps and the final configuration. *)
Fixpoint exec (sched : list action) (s : config)
  : option (list label * config) :=
  match sched with
  | [] => Some ([], s)
  | a :: rest =>
      match thread_step a s with
      | None => None
      | Some (l, s') =>
          match exec rest s' with
          | None => None
          | Some (ls, s'') => Some (l :: ls, s'')
          end
      end
  end.

(** Thread [t] makes a call and then executes [n] of its lines. *)
Definition call_steps (t : tid) (c : call) (n : nat) : list action :=
  Invoke t c :: repeat (Advance t) n.

(** The atomic steps and the popped values a list of labels stands for. *)
Fixpoint ops_of (ls : list label) : list (op T) :=
  match ls with
  | [] => []
  | Silent :: rest => ops_of rest
  | Pushed d :: rest => Push d :: ops_of rest
  | Popped _ :: rest => Pop :: ops_of rest
  end.

Fixpoint outs_of (ls : list label) : list (slot T) :=
  match ls with
  | [] => []
  | Popped d :: rest => d :: outs_of rest
  | _ :: rest => outs_of rest
  end.

(** Which lines are inside the critical sections. *)
Definition holds_producer_mtx (p : pc) : bool :=
  match p with
  | PushWait _ | PushAppend _ | PushUnlock _ => true
  | _ => false
  end.

Definition holds_consumer_mtx (p : pc) : bool :=
  match p with
  | PopWait | PopFront | PopRemove _ | PopUnlock _ => true
  | _ => false
  end.

(** The invariant of the machine. *)
Record inv (s : config) : Prop := mkInv {
  inv_cap : (q_size (buf s) <= cap_ (buf s))%N;
  inv_producer : forall t,
      holds_producer_mtx (pcs s t) = true <-> producer_mtx_ s = Some t;
  inv_consumer : forall t,
      holds_consumer_mtx (pcs s t) = true <-> consumer_mtx_ s = Some t;
  inv_append : forall t d,
      pcs s t = PushAppend d -> (q_size (buf s) < cap_ (buf s))%N;
  inv_front : forall t, pcs s t = PopFront -> q_ (buf s) <> [];
  inv_remove : forall t d,
      pcs s t = PopRemove d -> exists rest, q_ (buf s) = d :: rest
}.

(** What the label of a step says about the buffer before and after it, in
    terms of the atomic operations. *)
Definition refines (l : label) (b b' : BoundedBuffer T) : Prop :=
  match l with
  | Silent => b' = b
  | Pushed d => push d b = Some (tt, b')
  | Popped d => pop b = Some (d, b')
  end.

End WithPayload.

Arguments Idle {T}.
Arguments PopLock {T}.
Arguments PopWait {T}.
Arguments PopBlocked {T}.
Arguments PopFront {T}.
Arguments CallPop {T}.
Arguments Silent {T}.
Arguments init {T} cap.
Arguments Invoke {T} t c.
Arguments Advance {T} t.

End Threads.

(** ** Counting the steps of a run *)

Module Counting.
Import Buffer.
Section WithPayload.

Variable T : Type.

(** The number of push steps in a list of steps. *)
Definition pushes (ops : list (op T)) : nat := length (pushed ops).

(** Strict alternation of pushes and pops; [push_next] tells which of the
    two the next step has to be. *)
Fixpoint alternates (push_next : bool) (ops : list (op T)) : bool :=
  match ops with
  | [] => true
  | Push _ :: rest => push_next && alternates false rest
  | Pop :: rest => negb push_next && alternates true rest
  end.

End WithPayload.
End Counting.

(** ** The clients of the buffer: [producer], [producer_done], [consumer]

    A client is a sequence of calls on the buffer and of lines written to
    [std::cout]; what it does next may depend on what [pop] returned.  The
    buffer of [main] is a [BoundedBuffer<int>]; an [int] is a [Z] (the
    clients compute no arithmetic on the values they push or pop). *)

Module Clients.
Import Buffer.

(** A line written by [consumer]: the text
    [std::format("{} 消费了 {}\n", id, *data)], kept as the pair of its two
    arguments. *)
Definition line : Type := (Z * Z)%type.

Inductive prog : Type :=
| Return
| DoPush (data : slot Z) (k : prog)      (* buf->push(data); k *)
| DoPop (k : slot Z -> prog)             (* auto data = buf->pop(); k data *)
| DoPrint (id : Z) (v : Z) (k : prog).   (* std::cout << ...; k *)

(** [producer]: [for (int i = 0; i < 32; i++) buf->push(i);]
    [producer_from i n] is the loop with [n] iterations left, at counter
    [i]. *)
Fixpoint producer_from (i : Z) (n : nat) : prog :=
  match n with
  | O => Return
  | S k => DoPush (Some i) (producer_from (i + 1) k)
  end.

Definition producer_prog : prog := producer_from 0 32.

(** [producer_done]: [buf->push(std::nullopt);] *)
Definition producer_done_prog : prog := DoPush None Return.

(** [consumer]:
    [for (int i = 0; i < 32; i++) {
       auto data = buf->pop();
       if (data.has_value()) std::cout << ...; else break; }]
    [consumer_from n id] is the loop with [n] iterations left. *)
Fixpoint consumer_from (n : nat) (id : Z) : prog :=
  match n with
  | O => Return
  | S k =>
      DoPop (fun data =>
               match data with
               | Some v => DoPrint id v (consumer_from k id)
               | None => Return
               end)
  end.

Definition consumer (id : Z) : prog := consumer_from 32 id.

(** The last loop of [main]:
    [for (int i = 0; i < consumer_cnt; i++) producer_done(&buf);] *)
Fixpoint shutdown_from (n : nat) : prog :=
  match n with
  | O => Return
  | S k => DoPush None (shutdown_from k)
  end.

Definition consumer_cnt : nat := 32.

Definition main_shutdown : prog := shutdown_from consumer_cnt.

(** A client running alone on a buffer: the lines it writes.  It has no
    result when one of its calls blocks. *)
Fixpoint interp (p : prog) : Blocking (BoundedBuffer Z) (list line) :=
  match p with
  | Return => ret []
  | DoPush d k => (push d ;; interp k)%blocking
  | DoPop k => (data <- pop ;; interp (k data))%blocking
  | DoPrint id v k => (rest <- interp k ;; ret ((id, v) :: rest))%blocking
  end.

(** A client seen from outside, whatever the other threads do: given the
    values its successive [pop] calls return, the lines it writes, the
    values it pushes, the number of its pops that returned, and what is left
    of it when the given values are used up. *)
Record behaviour : Type := mkBehaviour {
  written : list line;
  sent : list (slot Z);
  popped : nat;
  residual : prog
}.

Fixpoint feed (p : prog) (results : list (slot Z)) : behaviour :=
  match p with
  | Return => mkBehaviour [] [] 0 Return
  | DoPush d k =>
      let r := feed k results in
      mkBehaviour (written r) (d :: sent r) (popped r) (residual r)
  | DoPop k =>
      match results with
      | [] => mkBehaviour [] [] 0 p
      | data :: rest =>
          let r := feed (k data) rest in
          mkBehaviour (written r) (sent r) (S (popped r)) (residual r)
      end
  | DoPrint id v k =>
      let r := feed k results in
      mkBehaviour ((id, v) :: written r) (sent r) (popped r) (residual r)
  end.

(** The payloads at the front of a list of slots, at most [n] of them, up
    to the first end-of-stream marker. *)
Fixpoint payload_prefix (n : nat) (l : list (slot Z)) : list Z :=
  match n, l with
  | S k, Some v :: rest => v :: payload_prefix k rest
  | _, _ => []
  end.

(** The lines a consumer writes for a list of values, a list of values as
    slots, and the values [i], [i + 1], ... that [producer_from i n]
    pushes. *)
Definition tagged (id : Z) (vs : list Z) : list line :=
  map (fun v => (id, v)) vs.

Definition payloads (vs : list Z) : list (slot Z) := map (@Some Z) vs.

Definition counting (i : Z) (n : nat) : list Z :=
  map (fun k => (i + Z.of_nat k)%Z) (seq 0 n).

(** *** The threads of [main], interleaved at the level of whole calls

    [main] starts one [producer] thread and [consumer_cnt] [consumer]
    threads with ids 0 to 31, then runs its shutdown loop itself.  The
    scheduler picks the thread that makes its next call or writes its next
    line; [sleep_for] only delays [main] and does not appear. *)
Record system : Type := mkSystem {
  sbuf : BoundedBuffer Z;
  pool : nat -> prog;
  cout : list line
}.

Definition set_thread (f : nat -> prog) (t : nat) (p : prog) : nat -> prog :=
  fun t' => if Nat.eqb t' t then p else f t'.

Definition sys_step (t : nat) (s : system) : option system :=
  match pool s t with
  | Return => None
  | DoPush d k =>
      match push d (sbuf s) with
      | Some (_, b') => Some (mkSystem b' (set_thread (pool s) t k) (cout s))
      | None => None
      end
  | DoPop k =>
      match pop (sbuf s) with
      | Some (d, b') =>
          Some (mkSystem b' (set_thread (pool s) t (k d)) (cout s))
      | None => None
      end
  | DoPrint id v k =>
      Some (mkSystem (sbuf s) (set_thread (pool s) t k) (cout s ++ [(id, v)]))
  end.

Fixpoint sys_exec (sched : list nat) (s : system) : option system :=
  match sched with
  | [] => Some s
  | t :: rest =>
      match sys_step t s with
      | Some s' => sys_exec rest s'
      | None => None
      end
  end.

(** Where the payloads are: popped by a consumer and about to be written,
    still in the queue, or still to be pushed by a thread before its next
    pop or line. *)
Definition pending_of (p : prog) : list Z :=
  match p with
  | DoPrint _ v _ => [v]
  | _ => []
  end.

Fixpoint values_of (q : list (slot Z)) : list Z :=
  match q with
  | [] => []
  | Some v :: rest => v :: values_of rest
  | None :: rest => values_of rest
  end.

Fixpoint to_push (p : prog) : list Z :=
  match p with
  | DoPush (Some v) k => v :: to_push k
  | DoPush None k => to_push k
  | _ => []
  end.

(** Thread 0 is [main] after it has started the others, thread 1 the
    producer, thread [2 + id] the consumer [id]. *)
Definition main_pool (t : nat) : prog :=
  match t with
  | 0 => main_shutdown
  | 1 => producer_prog
  | S (S id) => if (id <? consumer_cnt)%nat then consumer (Z.of_nat id)
                else Return
  end.

(** The threads that run [consumer]. *)
Definition consumers : list nat := seq 2 consumer_cnt.

(** The payloads of a state of [main]: written, about to be written, in
    the queue, and not yet pushed by the producer. *)
Definition in_flight (s : system) : list Z :=
  map snd (cout s) ++
  flat_map (fun t => pending_of (pool s t)) consumers ++
  values_of (q_ (sbuf s)) ++
  to_push (pool s 1).

(** The shape of the threads of [main] and the whereabouts of the
    payloads. *)
Record main_inv (s : system) : Prop := mkMainInv {
  mi_main : exists n, pool s 0 = shutdown_from n;
  mi_producer : exists i n, pool s 1 = producer_from i n;
  mi_consumer : forall id,
      (id < consumer_cnt)%nat ->
      exists n,
        pool s (S (S id)) = consumer_from n (Z.of_nat id) \/
        exists v,
          pool s (S (S id)) =
            DoPrint (Z.of_nat id) v (consumer_from n (Z.of_nat id));
  mi_rest : forall t, (2 + consumer_cnt <= t)%nat -> pool s t = Return;
  mi_count : forall x,
      count_occ Z.eq_dec (in_flight s) x =
      count_occ Z.eq_dec (counting 0 32) x;
  mi_ids : Forall (fun l : line => (0 <= fst l < 32)%Z) (cout s);
  mi_cap : (q_size (sbuf s) <= cap_ (sbuf s))%N /\ cap_ (sbuf s) = 10%N
}.

(** [BoundedBuffer<int> buf(10);] *)
Definition main_system : system :=
  mkSystem (construct 10) main_pool [].

(** Two schedules of [main].  In the first the producer and the consumers
    take turns (push, pop, write), then [main] and the consumers take turns
    (push of a marker, pop).  In the second the producer thread is not
    scheduled until [main] has pushed its 32 markers and the consumers have
    popped them, ten at a time. *)
Definition turn_schedule : list nat :=
  flat_map (fun id => [1; 2 + id; 2 + id]) (seq 0 consumer_cnt) ++
  flat_map (fun id => [0; 2 + id]) (seq 0 consumer_cnt).

Definition late_producer_schedule : list nat :=
  repeat 0 10 ++ seq 2 10 ++ repeat 0 10 ++ seq 12 10 ++
  repeat 0 10 ++ seq 22 10 ++ repeat 0 2 ++ seq 32 2 ++ repeat 1 10.

End Clients.

(** ** The member functions with their condition variables

    [Module Threads] lets a thread inside [wait] wake up whenever it likes.
    This machine also keeps who is asleep: [wait(lk, pred)] is
    [while (!pred()) wait(lk);], so a thread first evaluates the predicate
    with the mutex held, then, in a separate step, releases the mutex and
    falls asleep on the condition variable.  It stays asleep until a
    [notify_all] on that condition variable or a spurious wake-up, then
    takes the mutex again and re-evaluates the predicate. *)

Module Monitor.
Import Buffer.
Section WithPayload.

Variable T : Type.

Definition tid : Type := nat.

Inductive call : Type :=
| CallPush (data : slot T)
| CallPop.

Inductive pc : Type :=
| Idle
| PushLock (data : slot T)      (* line 24: unique_lock lk(producer_mtx_) *)
| PushTest (data : slot T)      (* line 26: mutex held, evaluate predicate *)
| PushSleep (data : slot T)     (* line 26: predicate false, call wait(lk) *)
| PushWaiting (data : slot T)   (* line 26: asleep on producer_cv_ *)
| PushWoken (data : slot T)     (* line 26: woken, take the mutex again *)
| PushAppend (data : slot T)    (* line 27: q_.push(data) *)
| PushUnlock (data : slot T)    (* line 28: lk.unlock() *)
| PushNotify (data : slot T)    (* line 30: consumer_cv_.notify_all() *)
| PopLock                       (* line 34: unique_lock lk(consumer_mtx_) *)
| PopTest                       (* line 36: mutex held, evaluate predicate *)
| PopSleep                      (* line 36: predicate false, call wait(lk) *)
| PopWaiting                    (* line 36: asleep on consumer_cv_ *)
| PopWoken                      (* line 36: woken, take the mutex again *)
| PopFront                      (* line 37: auto data = q_.front() *)
| PopRemove (data : slot T)     (* line 38: q_.pop() *)
| PopUnlock (data : slot T)     (* line 39: lk.unlock() *)
| PopNotify (data : slot T).    (* lines 41-42: notify_all, return data *)

Record config : Type := mkConfig {
  buf : BoundedBuffer T;
  producer_mtx_ : option tid;   (* the thread that holds the mutex *)
  consumer_mtx_ : option tid;
  pcs : tid -> pc
}.

Definition init (cap : N) : config :=
  {| buf := construct cap;
     producer_mtx_ := None;
     consumer_mtx_ := None;
     pcs := fun _ => Idle |}.

Definition upd (f : tid -> pc) (t : tid) (p : pc) : tid -> pc :=
  fun t' => if Nat.eqb t' t then p else f t'.

Definition goto (s : config) (t : tid) (p : pc) : config :=
  {| buf := buf s; producer_mtx_ := producer_mtx_ s;
     consumer_mtx_ := consumer_mtx_ s; pcs := upd (pcs s) t p |}.

Definition set_buf (s : config) (b : BoundedBuffer T) : config :=
  {| buf := b; producer_mtx_ := producer_mtx_ s;
     consumer_mtx_ := consumer_mtx_ s; pcs := pcs s |}.

Definition set_producer_mtx (s : config) (m : option tid) : config :=
  {| buf := buf s; producer_mtx_ := m;
     consumer_mtx_ := consumer_mtx_ s; pcs := pcs s |}.

Definition set_consumer_mtx (s : config) (m : option tid) : config :=
  {| buf := buf s; producer_mtx_ := producer_mtx_ s;
     consumer_mtx_ := m; pcs := pcs s |}.

(** [producer_cv_.notify_all()] and [consumer_cv_.notify_all()]: every
    thread asleep on the condition variable is woken. *)
Definition wake_producer (p : pc) : pc :=
  match p with
  | PushWaiting d => PushWoken d
  | _ => p
  end.

Definition wake_consumer (p : pc) : pc :=
  match p with
  | PopWaiting => PopWoken
  | _ => p
  end.

Definition notify_all (wake : pc -> pc) (s : config) : config :=
  {| buf := buf s; producer_mtx_ := producer_mtx_ s;
     consumer_mtx_ := consumer_mtx_ s; pcs := fun t => wake (pcs s t) |}.

Inductive label : Type :=
| Silent
| Pushed (data : slot T)
| Popped (data : slot T).

Inductive action : Type :=
| Invoke (t : tid) (c : call)   (* an idle thread calls push or pop *)
| Advance (t : tid)             (* a thread executes its current line *)
| Spurious (t : tid).           (* a sleeping thread wakes up unnotified *)

Definition invoke (t : tid) (c : call) (s : config)
  : option (label * config) :=
  match pcs s t with
  | Idle =>
      Some (Silent, goto s t (match c with
                              | CallPush d => PushLock d
                              | CallPop => PopLock
                              end))
  | _ => None
  end.

Definition lock_producer (t : tid) (p : pc) (s : config)
  : option (label * config) :=
  match producer_mtx_ s with
  | None => Some (Silent, goto (set_producer_mtx s (Some t)) t p)
  | Some _ => None
  end.

Definition lock_consumer (t : tid) (p : pc) (s : config)
  : option (label * config) :=
  match consumer_mtx_ s with
  | None => Some (Silent, goto (set_consumer_mtx s (Some t)) t p)
  | Some _ => None
  end.

Definition advance (t : tid) (s : config) : option (label * config) :=
  match pcs s t with
  | Idle => None
  | PushLock d => lock_producer t (PushTest d) s
  | PushTest d =>
      if (q_size (buf s) <? cap_ (buf s))%N
      then Some (Silent, goto s t (PushAppend d))
      else Some (Silent, goto s t (PushSleep d))
  | PushSleep d =>
      Some (Silent, goto (set_producer_mtx s None) t (PushWaiting d))
  | PushWaiting _ => None
  | PushWoken d => lock_producer t (PushTest d) s
  | PushAppend d =>
      match q_push d (buf s) with
      | Some (_, b') => Some (Pushed d, goto (set_buf s b') t (PushUnlock d))
      | None => None
      end
  | PushUnlock d =>
      Some (Silent, goto (set_producer_mtx s None) t (PushNotify d))
  | PushNotify d => Some (Silent, goto (notify_all wake_consumer s) t Idle)
  | PopLock => lock_consumer t PopTest s
  | PopTest =>
      if negb (q_empty (buf s))
      then Some (Silent, goto s t PopFront)
      else Some (Silent, goto s t PopSleep)
  | PopSleep => Some (Silent, goto (set_consumer_mtx s None) t PopWaiting)
  | PopWaiting => None
  | PopWoken => lock_consumer t PopTest s
  | PopFront =>
      match q_front (buf s) with
      | Some (d, _) => Some (Silent, goto s t (PopRemove d))
      | None => None
      end
  | PopRemove d =>
      match q_pop (buf s) with
      | Some (_, b') => Some (Popped d, goto (set_buf s b') t (PopUnlock d))
      | None => None
      end
  | PopUnlock d =>
      Some (Silent, goto (set_consumer_mtx s None) t (PopNotify d))
  | PopNotify d => Some (Silent, goto (notify_all wake_producer s) t Idle)
  end.

Definition spurious (t : tid) (s : config) : option (label * config) :=
  match pcs s t with
  | PushWaiting d => Some (Silent, goto s t (PushWoken d))
  | PopWaiting => Some (Silent, goto s t PopWoken)
  | _ => None
  end.

Definition thread_step (a : action) (s : config) : option (label * config) :=
  match a with
  | Invoke t c => invoke t c s
  | Advance t => advance t s
  | Spurious t => spurious t s
  end.

Fixpoint exec (sched : list action) (s : config)
  : option (list label * config) :=
  match sched with
  | [] => Some ([], s)
  | a :: rest =>
      match thread_step a s with
      | None => None
      | Some (l, s') =>
          match exec rest s' with
          | None => None
          | Some (ls, s'') => Some (l :: ls, s'')
          end
      end
  end.

Fixpoint ops_of (ls : list label) : list (op T) :=
  match ls with
  | [] => []
  | Silent :: rest => ops_of rest
  | Pushed d :: rest => Push d :: ops_of rest
  | Popped _ :: rest => Pop :: ops_of rest
  end.

Fixpoint outs_of (ls : list label) : list (slot T) :=
  match ls with
  | [] => []
  | Popped d :: rest => d :: outs_of rest
  | _ :: rest => outs_of rest
  end.

(** The lines at which a thread holds a mutex. *)
Definition holds_producer_mtx (p : pc) : bool :=
  match p with
  | PushTest _ | PushSleep _ | PushAppend _ | PushUnlock _ => true
  | _ => false
  end.

Definition holds_consumer_mtx (p : pc) : bool :=
  match p with
  | PopTest | PopSleep | PopFront | PopRemove _ | PopUnlock _ => true
  | _ => false
  end.

Record inv (s : config) : Prop := mkInv {
  inv_cap : (q_size (buf s) <= cap_ (buf s))%N;
  inv_producer : forall t,
      holds_producer_mtx (pcs s t) = true <-> producer_mtx_ s = Some t;
  inv_consumer : forall t,
      holds_consumer_mtx (pcs s t) = true <-> consumer_mtx_ s = Some t;
  inv_append : forall t d,
      pcs s t = PushAppend d -> (q_size (buf s) < cap_ (buf s))%N;
  inv_front : forall t, pcs s t = PopFront -> q_ (buf s) <> [];
  inv_remove : forall t d,
      pcs s t = PopRemove d -> exists rest, q_ (buf s) = d :: rest
}.

Definition refines (l : label) (b b' : BoundedBuffer T) : Prop :=
  match l with
  | Silent => b' = b
  | Pushed d => push d b = Some (tt, b')
  | Popped d => pop b = Some (d, b')
  end.

(** One complete call by a thread that is never kept waiting: the call
    and the five lines of [push], or the six of [pop]. *)
Definition push_call (t : tid) (d : slot T) : list action :=
  Invoke t (CallPush d) :: repeat (Advance t) 5.

Definition pop_call (t : tid) : list action :=
  Invoke t CallPop :: repeat (Advance t) 6.

End WithPayload.

Arguments Idle {T}.
Arguments PopLock {T}.
Arguments PopTest {T}.
Arguments PopSleep {T}.
Arguments PopWaiting {T}.
Arguments PopWoken {T}.
Arguments PopFront {T}.
Arguments CallPop {T}.
Arguments Silent {T}.
Arguments init {T} cap.
Arguments Invoke {T} t c.
Arguments Advance {T} t.
Arguments Spurious {T} t.
Arguments pop_call {T} t.

End Monitor.

(** * Properties of the atomic operations *)

Import Buffer.

Section BufferFacts.

Variable T : Type.
Implicit Types (b : BoundedBuffer T) (d : slot T) (ops : list (op T)).

(** ** What [push] and [pop] compute *)

Lemma push_inv d b u b' :
  push d b = Some (u, b') ->
  (q_size b < cap_ b)%N /\ b' = mkBuffer (q_ b ++ [d]) (cap_ b).
Proof.
  unfold push, bind, wait, q_push.
  destruct (q_size b <? cap_ b)%N eqn:E; [| discriminate].
  intros H. injection H as _ <-. apply N.ltb_lt in E. now split.
Qed.

Lemma push_enabled d b :
  (q_size b < cap_ b)%N ->
  push d b = Some (tt, mkBuffer (q_ b ++ [d]) (cap_ b)).
Proof.
  intros H. unfold push, bind, wait, q_push.
  apply N.ltb_lt in H. now rewrite H.
Qed.

Lemma push_blocked d b :
  (cap_ b <= q_size b)%N -> push d b = None.
Proof.
  intros H. unfold push, bind, wait.
  apply N.ltb_ge in H. now rewrite H.
Qed.

Lemma pop_inv b d b' :
  pop b = Some (d, b') ->
  q_ b = d :: q_ b' /\ cap_ b' = cap_ b.
Proof.
  unfold pop, bind, wait, q_empty, q_front, q_pop, ret.
  destruct b as [[| x rest] c]; simpl; [discriminate |].
  intros H. injection H as <- <-. now split.
Qed.

Lemma pop_cons (x : slot T) (rest : list (slot T)) (c : N) :
  pop (mkBuffer (x :: rest) c) = Some (x, mkBuffer rest c).
Proof. reflexivity. Qed.

Lemma pop_blocked b : q_ b = [] -> pop b = None.
Proof.
  destruct b as [q c]; simpl; intros ->. reflexivity.
Qed.

Lemma q_size_app b d :
  q_size (mkBuffer (q_ b ++ [d]) (cap_ b)) = (q_size b + 1)%N.
Proof.
  unfold q_size; simpl. rewrite length_app; simpl. lia.
Qed.

(** One step of a run, by cases. *)
Lemma step_inv o b out b' :
  step o b = Some (out, b') ->
  (exists d, o = Push d /\ out = None /\ push d b = Some (tt, b')) \/
  (exists d, o = Pop /\ out = Some d /\ pop b = Some (d, b')).
Proof.
  destruct o as [d |]; simpl.
  - destruct (push d b) as [[[] b1] |] eqn:E; [| discriminate].
    intros H; injection H as <- <-. left; eauto.
  - destruct (pop b) as [[d b1] |] eqn:E; [| discriminate].
    intros H; injection H as <- <-. right; eauto.
Qed.

Lemma run_cons_inv o ops b outs b2 :
  run (o :: ops) b = Some (outs, b2) ->
  exists out b1 outs1,
    step o b = Some (out, b1) /\ run ops b1 = Some (outs1, b2) /\
    outs = match out with Some d => d :: outs1 | None => outs1 end.
Proof.
  simpl. destruct (step o b) as [[out b1] |] eqn:Hs; [| discriminate].
  destruct (run ops b1) as [[outs1 b3] |] eqn:Hr; [| discriminate].
  intros H; injection H as <- <-. exists out, b1, outs1. auto.
Qed.

Lemma run_app ops1 ops2 b outs1 b1 :
  run ops1 b = Some (outs1, b1) ->
  run (ops1 ++ ops2) b =
  match run ops2 b1 with
  | Some (outs2, b2) => Some (outs1 ++ outs2, b2)
  | None => None
  end.
Proof.
  revert b outs1 b1.
  induction ops1 as [| o ops1 IH]; intros b outs1 b1 H.
  - injection H as <- <-. simpl. now destruct (run ops2 b) as [[? ?] |].
  - apply run_cons_inv in H as (out & bm & outsm & Hs & Hr & ->).
    simpl. rewrite Hs. rewrite (IH _ _ _ Hr).
    destruct (run ops2 b1) as [[outs2 b2] |]; [| reflexivity].
    now destruct out.
Qed.

(** The capacity field is never written, the occupancy stays within it. *)
Lemma step_cap o b out b' :
  step o b = Some (out, b') -> cap_ b' = cap_ b.
Proof.
  intros H. apply step_inv in H as [(d & _ & _ & H) | (d & _ & _ & H)].
  - apply push_inv in H as [_ ->]. reflexivity.
  - now apply pop_inv in H.
Qed.

Lemma step_bounded o b out b' :
  step o b = Some (out, b') ->
  (q_size b <= cap_ b)%N -> (q_size b' <= cap_ b')%N.
Proof.
  intros H Hb. apply step_inv in H as [(d & _ & _ & H) | (d & _ & _ & H)].
  - apply push_inv in H as [Hlt ->]. rewrite q_size_app. simpl. lia.
  - apply pop_inv in H as [Hq Hc]. rewrite Hc.
    unfold q_size in *. rewrite Hq in Hb. simpl in Hb. lia.
Qed.

Lemma run_cap ops : forall b outs b',
  run ops b = Some (outs, b') -> cap_ b' = cap_ b.
Proof.
  induction ops as [| o ops IH]; intros b outs b' H.
  - now injection H as _ <-.
  - apply run_cons_inv in H as (out & b1 & outs1 & Hs & Hr & _).
    rewrite (IH _ _ _ Hr). eapply step_cap; eauto.
Qed.

Lemma run_bounded ops : forall b outs b',
  run ops b = Some (outs, b') ->
  (q_size b <= cap_ b)%N -> (q_size b' <= cap_ b')%N.
Proof.
  induction ops as [| o ops IH]; intros b outs b' H Hb.
  - now injection H as _ <-.
  - apply run_cons_inv in H as (out & b1 & outs1 & Hs & Hr & _).
    eapply IH; eauto. eapply step_bounded; eauto.
Qed.

(** The queue is first in, first out: what was in the queue followed by
    what was pushed is what was popped followed by what is left. *)
Lemma run_fifo ops : forall b outs b',
  run ops b = Some (outs, b') ->
  q_ b ++ pushed ops = outs ++ q_ b'.
Proof.
  induction ops as [| o ops IH]; intros b outs b' H.
  - injection H as <- <-. simpl. now rewrite app_nil_r.
  - apply run_cons_inv in H as (out & b1 & outs1 & Hs & Hr & ->).
    apply IH in Hr.
    apply step_inv in Hs as [(d & -> & -> & H) | (d & -> & -> & H)].
    + apply push_inv in H as [_ ->]. simpl in *.
      now rewrite <- app_assoc in Hr.
    + apply pop_inv in H as [Hq _]. rewrite Hq. simpl. now f_equal.
Qed.

Lemma run_outs_length ops : forall b outs b',
  run ops b = Some (outs, b') -> length outs = pops ops.
Proof.
  induction ops as [| o ops IH]; intros b outs b' H.
  - now injection H as <- _.
  - apply run_cons_inv in H as (out & b1 & outs1 & Hs & Hr & ->).
    apply IH in Hr.
    apply step_inv in Hs as [(d & -> & -> & _) | (d & -> & -> & _)];
      simpl; congruence.
Qed.

(** Pushing a list of values that fits, then popping them all. *)
Lemma run_pushes (vs : list (slot T)) : forall b,
  (q_size b + N.of_nat (length vs) <= cap_ b)%N ->
  run (map (@Push T) vs) b = Some ([], mkBuffer (q_ b ++ vs) (cap_ b)).
Proof.
  induction vs as [| v vs IH]; intros b H.
  - simpl. rewrite app_nil_r. now destruct b.
  - simpl map. simpl run. simpl length in H.
    rewrite push_enabled by lia.
    rewrite IH; simpl.
    + now rewrite <- app_assoc.
    + fold (q_size b). rewrite q_size_app. lia.
Qed.

Lemma run_pops (vs : list (slot T)) : forall (rest : list (slot T)) (c : N),
  run (repeat Pop (length vs)) (mkBuffer (vs ++ rest) c) =
  Some (vs, mkBuffer rest c).
Proof.
  induction vs as [| v vs IH]; intros rest c.
  - reflexivity.
  - simpl. rewrite IH. reflexivity.
Qed.

(** Counting payloads and end-of-stream markers. *)
Lemma count_payloads_app (l1 l2 : list (slot T)) :
  count_payloads (l1 ++ l2) = count_payloads l1 + count_payloads l2.
Proof. unfold count_payloads. now rewrite filter_app, length_app. Qed.

Lemma count_eos_app (l1 l2 : list (slot T)) :
  count_eos (l1 ++ l2) = count_eos l1 + count_eos l2.
Proof. unfold count_eos. now rewrite filter_app, length_app. Qed.

Lemma count_eos_repeat (n : nat) : count_eos (repeat (@None T) n) = n.
Proof.
  unfold count_eos. induction n as [| n IH]; simpl; [reflexivity |].
  now rewrite IH.
Qed.

Lemma count_payloads_repeat (n : nat) :
  count_payloads (repeat (@None T) n) = 0.
Proof.
  unfold count_payloads. induction n as [| n IH]; simpl; [reflexivity |].
  exact IH.
Qed.

(** [producer_done] called [n] times when there is room for [n] markers. *)
Lemma times_producer_done (n : nat) : forall b,
  (q_size b + N.of_nat n <= cap_ b)%N ->
  times n producer_done b =
  Some (tt, mkBuffer (q_ b ++ repeat None n) (cap_ b)).
Proof.
  induction n as [| n IH]; intros b H.
  - simpl. rewrite app_nil_r. now destruct b.
  - simpl times. unfold bind, producer_done.
    rewrite push_enabled by lia.
    rewrite IH.
    + simpl. now rewrite <- app_assoc.
    + rewrite q_size_app. simpl. lia.
Qed.

(** Sums over the list of producer threads. *)
Lemma list_sum_map_add (A : Type) (f g : A -> nat) (l : list A) :
  list_sum (map (fun x => f x + g x) l) =
  list_sum (map f l) + list_sum (map g l).
Proof.
  induction l as [| x l IH]; simpl; [reflexivity | rewrite IH; lia].
Qed.

Lemma list_sum_map_zero (A : Type) (l : list A) :
  list_sum (map (fun _ => 0) l) = 0.
Proof. induction l as [| x l IH]; simpl; auto. Qed.

Lemma list_sum_map_const (A : Type) (k : nat) (l : list A) :
  list_sum (map (fun _ => k) l) = length l * k.
Proof. induction l as [| x l IH]; simpl; [reflexivity | now rewrite IH]. Qed.

Lemma list_sum_map_absent (t : nat) (w : nat) (ts : list nat) :
  ~ In t ts ->
  list_sum (map (fun t' => if Nat.eqb t t' then w else 0) ts) = 0.
Proof.
  induction ts as [| x ts IH]; simpl; intros H; [reflexivity |].
  destruct (Nat.eqb_spec t x) as [-> | _]; [tauto |].
  apply IH. tauto.
Qed.

Lemma list_sum_map_once (t : nat) (w : nat) (ts : list nat) :
  NoDup ts -> In t ts ->
  list_sum (map (fun t' => if Nat.eqb t t' then w else 0) ts) = w.
Proof.
  induction 1 as [| x ts Hx Hnd IH]; simpl; intros Hin; [tauto |].
  destruct (Nat.eqb_spec t x) as [-> | Hne].
  - rewrite list_sum_map_absent by assumption. lia.
  - apply IH. destruct Hin as [-> |]; tauto.
Qed.

Lemma count_payloads_pushed_cons (o : op T) ops :
  count_payloads (pushed (o :: ops)) =
  payload_weight o + count_payloads (pushed ops).
Proof. destruct o as [[x |] |]; reflexivity. Qed.

Lemma payloads_pushed_by_cons (t t' : nat) (o : op T) (sch : schedule T) :
  payloads_pushed_by t' ((t, o) :: sch) =
  (if Nat.eqb t t' then payload_weight o else 0) + payloads_pushed_by t' sch.
Proof.
  unfold payloads_pushed_by, steps_by. simpl.
  destruct (Nat.eqb t t'); [apply count_payloads_pushed_cons | reflexivity].
Qed.

(** When the threads that push payloads are listed without repetition, the
    payloads pushed in a schedule are the sum of what each listed thread
    pushes. *)
Lemma payloads_by_threads (ts : list nat) (sch : schedule T) :
  NoDup ts ->
  (forall t x, In (t, Push (Some x)) sch -> In t ts) ->
  count_payloads (pushed (steps_of sch)) =
  list_sum (map (fun t => payloads_pushed_by t sch) ts).
Proof.
  intros Hnd. induction sch as [| [t o] sch IH]; intros Hin.
  - simpl. now rewrite list_sum_map_zero.
  - unfold steps_of in *. simpl map.
    rewrite count_payloads_pushed_cons.
    rewrite IH by (intros t0 x H; apply (Hin t0 x); now right).
    rewrite (map_ext _ _ (fun t' => payloads_pushed_by_cons t t' o sch)).
    rewrite list_sum_map_add. f_equal.
    destruct o as [[x |] |]; simpl.
    + symmetry. apply list_sum_map_once; [assumption |].
      apply (Hin t x). now left.
    + symmetry. clear. induction ts as [| y ts IH]; simpl;
        [reflexivity | now destruct (Nat.eqb t y)].
    + symmetry. clear. induction ts as [| y ts IH]; simpl;
        [reflexivity | now destruct (Nat.eqb t y)].
Qed.

(** The producer's values and the consumer's pops, interleaved. *)
Lemma interleaving_pushed (prod cons ops : list (op T)) :
  interleaving prod cons ops ->
  pushed cons = [] ->
  pushed ops = pushed prod.
Proof.
  induction 1 as [| o prod cons ops _ IH | o prod cons ops _ IH]; intros Hc.
  - reflexivity.
  - destruct o; simpl; now rewrite IH.
  - destruct o; simpl in *; [discriminate | now apply IH].
Qed.

Lemma interleaving_pops (prod cons ops : list (op T)) :
  interleaving prod cons ops ->
  pops ops = pops prod + pops cons.
Proof.
  induction 1 as [| o prod cons ops _ IH | o prod cons ops _ IH].
  - reflexivity.
  - destruct o; simpl; lia.
  - destruct o; simpl; lia.
Qed.

Lemma pushed_app (ops1 ops2 : list (op T)) :
  pushed (ops1 ++ ops2) = pushed ops1 ++ pushed ops2.
Proof.
  induction ops1 as [| [d |] ops1 IH]; simpl; [reflexivity | | assumption].
  now rewrite IH.
Qed.

Lemma run_prefix ops1 ops2 b outs b' :
  run (ops1 ++ ops2) b = Some (outs, b') ->
  exists outs1 b1 outs2,
    run ops1 b = Some (outs1, b1) /\ run ops2 b1 = Some (outs2, b') /\
    outs = outs1 ++ outs2.
Proof.
  intros H. destruct (run ops1 b) as [[outs1 b1] |] eqn:E.
  - erewrite run_app in H by exact E.
    destruct (run ops2 b1) as [[outs2 b2] |] eqn:E2; [| discriminate].
    injection H as <- <-. exists outs1, b1, outs2. auto.
  - exfalso. revert b outs b' H E.
    induction ops1 as [| o ops1 IH]; intros b outs b' H E; [discriminate |].
    simpl in H, E. destruct (step o b) as [[out bm] |]; [| discriminate].
    destruct (run ops1 bm) as [[outsm bn] |] eqn:Em; [discriminate |].
    destruct (run (ops1 ++ ops2) bm) as [[outsk bk] |] eqn:Ek; [| discriminate].
    eapply IH; eauto.
Qed.

End BufferFacts.

(** * The claims about the buffer *)

Section Claims.

Variable T : Type.
Implicit Types (b : BoundedBuffer T) (d : slot T) (ops : list (op T)).

(** C1 (capacity invariant).  A buffer is constructed with a capacity of at
    least one; whatever sequence of enabled push and pop steps is run on it,
    the occupancy of the state reached is at least zero and at most the
    configured capacity, and the capacity is still the configured one. *)
Theorem capacity_invariant (cap : N) ops (outs : list (slot T)) b :
  (1 <= cap)%N ->
  run ops (construct cap) = Some (outs, b) ->
  (0 <= occupancy b <= cap)%N /\ cap_ b = cap.
Proof.
  intros _ H.
  pose proof (run_cap _ _ H) as Hc. simpl in Hc.
  apply run_bounded in H.
  - unfold occupancy. rewrite Hc in H. lia.
  - unfold q_size; simpl. lia.
Qed.

(** C3 (push).  When the occupancy is below the capacity, [push data]
    returns (with no value), the new queue is the old one with [data]
    appended at the tail, the occupancy has grown by exactly one, and the
    capacity is unchanged. *)
Theorem push_appends d b :
  (occupancy b < cap_ b)%N ->
  exists b',
    push d b = Some (tt, b') /\
    q_ b' = q_ b ++ [d] /\
    occupancy b' = (occupancy b + 1)%N /\
    cap_ b' = cap_ b.
Proof.
  intros H. exists (mkBuffer (q_ b ++ [d]) (cap_ b)).
  split; [now apply push_enabled |].
  split; [reflexivity |]. split; [apply q_size_app | reflexivity].
Qed.

(** C4 (pop).  When the occupancy is positive, [pop] returns the head of
    the queue, which is a payload or the end-of-stream marker; the new queue
    is the old one without its head, the occupancy has dropped by exactly
    one, and the capacity is unchanged. *)
Theorem pop_removes_head b :
  (0 < occupancy b)%N ->
  exists d b',
    pop b = Some (d, b') /\
    hd_error (q_ b) = Some d /\
    q_ b = d :: q_ b' /\
    (occupancy b' + 1 = occupancy b)%N /\
    cap_ b' = cap_ b /\
    (d = None \/ exists x : T, d = Some x).
Proof.
  destruct b as [[| x rest] c]; unfold occupancy, q_size; simpl; [lia |].
  intros _. exists x, (mkBuffer rest c). simpl.
  repeat split; try lia.
  destruct x as [y |]; [right; now exists y | now left].
Qed.

(** C8 (construction).  The constructor checks nothing: for every capacity,
    zero included, it yields an empty buffer with that capacity, on which
    [size] answers zero. *)
Theorem construct_unchecked (cap : N) :
  cap_ (@construct T cap) = cap /\
  q_ (@construct T cap) = [] /\
  size (@construct T cap) = Some (0%N, construct cap) /\
  (exists b0 : BoundedBuffer T, construct 0 = b0 /\ cap_ b0 = 0%N).
Proof.
  repeat split. exists (construct 0). split; reflexivity.
Qed.

(** C9 (capacity zero).  On a buffer constructed with capacity zero no
    step is ever enabled: a run that has a result is the empty run, so the
    state reached is the empty buffer, the wait condition of [push] is false
    there, [push] of any value and [producer_done] have no result, and
    nothing was pushed. *)
Theorem capacity_zero_never_pushes ops (outs : list (slot T)) b :
  run ops (construct 0) = Some (outs, b) ->
  ops = [] /\ b = construct 0 /\
  q_ b = [] /\ cap_ b = 0%N /\
  (q_size b <? cap_ b)%N = false /\
  (forall d, push d b = None) /\
  producer_done b = None /\
  pushed ops = [] /\ outs = [].
Proof.
  intros H.
  assert (Hops : ops = []).
  { destruct ops as [| [d |] ops]; [reflexivity | |]; discriminate H. }
  subst ops. injection H as <- <-.
  repeat split; try reflexivity.
Qed.

(** C2 (first in, first out).  For every buffer and every run on it, the
    elements come out in the order they went in: the contents at the start
    followed by the pushed values are the popped values followed by the
    contents at the end.  So when A is the i-th and B the j-th pushed value
    with i < j and B has been popped, A has been popped too, by an earlier
    pop (pop number |q|+i against |q|+j).  In particular pushing n values
    that fit on an empty buffer and popping n times returns exactly the
    pushed values in push order. *)
Theorem fifo_order b :
  (forall ops outs b',
      run ops b = Some (outs, b') ->
      q_ b ++ pushed ops = outs ++ q_ b' /\
      (forall i j A B,
          i < j ->
          nth_error (pushed ops) i = Some A ->
          nth_error (pushed ops) j = Some B ->
          length (q_ b) + j < length outs ->
          length (q_ b) + i < length (q_ b) + j /\
          nth_error outs (length (q_ b) + i) = Some A /\
          nth_error outs (length (q_ b) + j) = Some B)) /\
  (forall vs : list (slot T),
      q_ b = [] ->
      (N.of_nat (length vs) <= cap_ b)%N ->
      run (map (@Push T) vs ++ repeat Pop (length vs)) b = Some (vs, b)).
Proof.
  split.
  - intros ops outs b' H. pose proof (run_fifo _ _ H) as Hf.
    split; [exact Hf |].
    intros i j A B Hij HA HB Hj.
    assert (Hk : forall k X, nth_error (pushed ops) k = Some X ->
                             length (q_ b) + k < length outs ->
                             nth_error outs (length (q_ b) + k) = Some X).
    { intros k X HX Hlt.
      rewrite <- (nth_error_app1 outs (q_ b')) by assumption.
      rewrite <- Hf. rewrite nth_error_app2 by lia.
      replace (length (q_ b) + k - length (q_ b)) with k by lia.
      exact HX. }
    split; [lia |]. split; apply Hk; auto; lia.
  - intros vs Hq Hfit.
    erewrite run_app.
    2:{ apply run_pushes. unfold q_size. rewrite Hq. simpl. lia. }
    rewrite Hq. simpl app. rewrite <- (app_nil_r vs) at 2.
    rewrite run_pops.
    destruct b as [q c]; simpl in *; now subst q.
Qed.

(** C6 (conservation).  In a run on a fresh buffer, let the payloads be
    pushed by P distinct producer threads, K payloads each, with any number
    of end-of-stream markers pushed by any thread.  If the run leaves the
    buffer empty (everything enqueued has been popped), then exactly P*K
    payloads were popped and exactly as many end-of-stream markers were
    popped as were pushed; the popped values are the pushed values. *)
Theorem conservation (P K : nat) (producers : list nat) (sch : schedule T)
    (cap : N) (outs : list (slot T)) b :
  NoDup producers ->
  length producers = P ->
  (forall t, In t producers -> payloads_pushed_by t sch = K) ->
  (forall t x, In (t, Push (Some x)) sch -> In t producers) ->
  run (steps_of sch) (construct cap) = Some (outs, b) ->
  q_ b = [] ->
  count_payloads outs = P * K /\
  count_eos outs = count_eos (pushed (steps_of sch)) /\
  outs = pushed (steps_of sch).
Proof.
  intros Hnd Hlen HK Hin Hrun Hq.
  apply run_fifo in Hrun. simpl in Hrun. rewrite Hq, app_nil_r in Hrun.
  subst outs. split; [| split; reflexivity].
  rewrite (payloads_by_threads sch Hnd Hin).
  rewrite (map_ext_in _ (fun _ => K)) by exact HK.
  rewrite list_sum_map_const. now rewrite Hlen.
Qed.

(** C7 (end of stream).  [producer_done] is [push] applied to the
    end-of-stream marker and agrees with the specification's
    [push_end_of_stream] on every buffer: it has a result exactly when the
    occupancy is below the capacity, and then appends one marker.  Called n
    times with room for n markers it appends exactly n markers.  Every pop
    removes one element, hence at most one marker, so n markers take n
    distinct pops: in any run the markers present and pushed are the markers
    popped and left, and n calls followed by n pops on a fresh buffer return
    n markers and leave it empty. *)
Theorem producer_done_is_push_eos b :
  producer_done b = push None b /\
  producer_done b = push_end_of_stream b /\
  (producer_done b <> None <-> (occupancy b < cap_ b)%N) /\
  (forall n,
      (occupancy b + N.of_nat n <= cap_ b)%N ->
      times n producer_done b =
        Some (tt, mkBuffer (q_ b ++ repeat None n) (cap_ b)) /\
      count_eos (q_ b ++ repeat None n) = count_eos (q_ b) + n /\
      count_payloads (q_ b ++ repeat None n) = count_payloads (q_ b)) /\
  (forall d b',
      pop b = Some (d, b') ->
      count_eos (q_ b) = (if is_eos d then 1 else 0) + count_eos (q_ b')) /\
  (forall ops outs b',
      run ops b = Some (outs, b') ->
      count_eos (q_ b) + count_eos (pushed ops) =
      count_eos outs + count_eos (q_ b')) /\
  (forall n,
      q_ b = [] ->
      (N.of_nat n <= cap_ b)%N ->
      run (repeat (Push None) n ++ repeat Pop n) b = Some (repeat None n, b)).
Proof.
  split; [reflexivity |].
  split.
  { unfold producer_done, push, push_end_of_stream, bind, wait, q_push,
      occupancy.
    now destruct (q_size b <? cap_ b)%N. }
  split.
  { unfold producer_done. split.
    - intros H. destruct (N.lt_ge_cases (occupancy b) (cap_ b)) as [| Hge];
        [assumption |].
      exfalso. apply H. now apply push_blocked.
    - intros H. unfold occupancy in H. now rewrite push_enabled. }
  split.
  { intros n Hn. split; [now apply times_producer_done |].
    rewrite count_eos_app, count_payloads_app.
    rewrite count_eos_repeat, count_payloads_repeat. lia. }
  split.
  { intros d b' H. apply pop_inv in H as [-> _].
    unfold count_eos. simpl. now destruct (is_eos d). }
  split.
  { intros ops outs b' H. apply run_fifo in H.
    rewrite <- !count_eos_app. now rewrite H. }
  intros n Hq Hn.
  assert (Hmap : repeat (Push (@None T)) n = map (@Push T) (repeat None n)).
  { clear. induction n as [| n IH]; simpl; [reflexivity | now rewrite IH]. }
  rewrite Hmap.
  erewrite run_app.
  2:{ apply run_pushes. unfold q_size. rewrite Hq, repeat_length.
      simpl. lia. }
  rewrite Hq. simpl app.
  pose proof (run_pops (repeat (@None T) n) [] (cap_ b)) as Hp.
  rewrite repeat_length, app_nil_r in Hp. rewrite Hp.
  destruct b as [q c]; simpl in *; now subst q.
Qed.

(** C10 (frame).  A push changes the queue only by appending its value at
    the tail: every element already enqueued keeps its position.  A pop
    changes it only by removing the head: every remaining element moves up
    by one and keeps its order.  [size] changes nothing.  None of the three
    writes the capacity. *)
Theorem frame b :
  (forall d b',
      push d b = Some (tt, b') ->
      q_ b' = q_ b ++ [d] /\
      (forall i, i < length (q_ b) -> nth_error (q_ b') i = nth_error (q_ b) i) /\
      length (q_ b') = S (length (q_ b)) /\
      cap_ b' = cap_ b) /\
  (forall d b',
      pop b = Some (d, b') ->
      q_ b = d :: q_ b' /\
      (forall i, nth_error (q_ b') i = nth_error (q_ b) (S i)) /\
      cap_ b' = cap_ b) /\
  (forall n b', size b = Some (n, b') -> b' = b /\ cap_ b' = cap_ b).
Proof.
  split; [| split].
  - intros d b' H. apply push_inv in H as [_ ->]. simpl.
    split; [reflexivity |]. split; [| split; [| reflexivity]].
    + intros i Hi. now apply nth_error_app1.
    + rewrite length_app. simpl. lia.
  - intros d b' H. apply pop_inv in H as [Hq Hc].
    split; [exact Hq |]. split; [| exact Hc].
    intros i. now rewrite Hq.
  - intros n b' H. unfold size in H. injection H as _ <-. now split.
Qed.

End Claims.

(** ** The scenario with capacity two *)

Section Scenario.

Local Open Scope Z_scope.

(** The schedule in which the producer runs as far as it can before the
    consumer starts. *)
Lemma scenario_producer_first :
  interleaving scenario_producer scenario_consumer
    [Push (Some 1); Push (Some 2); Pop; Push (Some 3); Pop; Pop].
Proof. unfold scenario_producer, scenario_consumer. repeat constructor. Qed.

(** C5, as stated, fails: with capacity two the second push (value 2) is
    enabled right after the first, so there is a complete run of the scenario
    in which it completes before any pop has occurred. *)
Lemma scenario_second_push_needs_no_pop :
  ~ (forall (ops : list (op Z)) outs b',
        interleaving scenario_producer scenario_consumer ops ->
        run ops (construct 2) = Some (outs, b') ->
        outs = [Some 1; Some 2; Some 3] /\
        (forall pre post,
            ops = pre ++ Push (Some 2) :: post -> (1 <= pops pre)%nat)).
Proof.
  intros H.
  destruct (H _ _ _ scenario_producer_first eq_refl) as [_ Hpre].
  specialize (Hpre [Push (Some 1)]
                [Pop; Push (Some 3); Pop; Pop] eq_refl).
  simpl in Hpre. lia.
Qed.

(** C5, amended.  With capacity two, in every complete run of the producer
    pushing 1, 2, 3 against the consumer popping three times, the pops return
    1, 2, 3 in that order and the buffer ends empty; the third push (value 3)
    does not complete before the first pop has occurred.  The first two
    pushes complete without any pop, after which the third is blocked. *)
Theorem scenario_capacity_two (ops : list (op Z)) outs b' :
  interleaving scenario_producer scenario_consumer ops ->
  run ops (construct 2) = Some (outs, b') ->
  outs = [Some 1; Some 2; Some 3] /\
  b' = construct 2 /\
  (forall pre post,
      ops = pre ++ Push (Some 3) :: post -> (1 <= pops pre)%nat) /\
  run [Push (Some 1); Push (Some 2)] (construct 2) =
    Some ([], mkBuffer [Some 1; Some 2] 2) /\
  push (Some 3) (mkBuffer [Some 1; Some 2] 2) = None.
Proof.
  intros Hi Hrun.
  pose proof (interleaving_pushed Hi eq_refl) as Hpushed.
  pose proof (interleaving_pops Hi) as Hpops.
  pose proof (run_outs_length _ _ Hrun) as Hlen.
  pose proof (run_fifo _ _ Hrun) as Hf.
  pose proof (run_cap _ _ Hrun) as Hc.
  rewrite Hpushed in Hf. simpl in Hf, Hpops, Hc.
  rewrite Hpops in Hlen.
  assert (Hq : q_ b' = []).
  { apply (f_equal (@length _)) in Hf. rewrite length_app, Hlen in Hf.
    simpl in Hf. destruct (q_ b'); [reflexivity | simpl in Hf; lia]. }
  rewrite Hq, app_nil_r in Hf.
  split; [now symmetry |].
  split; [destruct b'; simpl in *; now subst |].
  split; [| split; reflexivity].
  intros pre post ->.
  apply run_prefix in Hrun as (outs1 & b1 & outs2 & Hpre & Hpost & _).
  apply run_cons_inv in Hpost as (out & b2 & outs3 & Hstep & _ & _).
  apply step_inv in Hstep as [(d & Hd & _ & Hpush) | (d & Hd & _)];
    [| discriminate].
  apply push_inv in Hpush as [Hroom _].
  rewrite (run_cap _ _ Hpre) in Hroom. simpl in Hroom.
  rewrite <- (run_outs_length _ _ Hpre).
  rewrite pushed_app in Hpushed. simpl in Hpushed.
  assert (Hpp : pushed pre = [Some 1; Some 2]).
  { destruct (pushed pre) as [| a1 [| a2 [| a3 l]]]; simpl in Hpushed.
    - discriminate Hpushed.
    - discriminate Hpushed.
    - injection Hpushed as -> -> _. reflexivity.
    - injection Hpushed as _ _ _ Hnil. destruct l; discriminate. }
  pose proof (run_fifo _ _ Hpre) as Hf1. simpl in Hf1.
  rewrite Hpp in Hf1. apply (f_equal (@length _)) in Hf1.
  rewrite length_app in Hf1. simpl in Hf1.
  unfold q_size in Hroom. lia.
Qed.

End Scenario.

(** * Properties of the threaded machine *)

Import Threads.

Section ThreadFacts.

Variable T : Type.
Implicit Types (s : config T) (t : tid) (a : action T).

Lemma upd_same (f : tid -> pc T) t (p : pc T) : upd f t p t = p.
Proof. unfold upd. now rewrite Nat.eqb_refl. Qed.

Lemma upd_other (f : tid -> pc T) t t' (p : pc T) :
  t' <> t -> upd f t p t' = f t'.
Proof.
  intros H. unfold upd. now destruct (Nat.eqb_spec t' t).
Qed.

Lemma inv_init (cap : N) : inv (@init T cap).
Proof.
  constructor; simpl; try discriminate.
  - unfold q_size; simpl. lia.
  - intros t; split; discriminate.
  - intros t; split; discriminate.
Qed.

(** Two threads inside the same critical section are the same thread. *)
Lemma producer_mutex s t t' :
  inv s ->
  holds_producer_mtx (pcs s t) = true ->
  holds_producer_mtx (pcs s t') = true -> t = t'.
Proof.
  intros Hinv H1 H2.
  apply (inv_producer Hinv) in H1. apply (inv_producer Hinv) in H2.
  congruence.
Qed.

Lemma consumer_mutex s t t' :
  inv s ->
  holds_consumer_mtx (pcs s t) = true ->
  holds_consumer_mtx (pcs s t') = true -> t = t'.
Proof.
  intros Hinv H1 H2.
  apply (inv_consumer Hinv) in H1. apply (inv_consumer Hinv) in H2.
  congruence.
Qed.

Ltac mtx_case Hinv t t' Hpc :=
  let H1 := fresh "H" in let H2 := fresh "H" in
  let H3 := fresh "H" in let H4 := fresh "H" in
  pose proof (inv_producer Hinv t) as H1;
  pose proof (inv_producer Hinv t') as H2;
  pose proof (inv_consumer Hinv t) as H3;
  pose proof (inv_consumer Hinv t') as H4;
  simpl; unfold upd;
  destruct (Nat.eqb_spec t' t) as [-> | ?];
  rewrite ?Hpc in *; simpl in *;
  intuition (try congruence).

Lemma invoke_preserves t (c : call T) s l s' :
  inv s -> invoke t c s = Some (l, s') ->
  inv s' /\ refines l (buf s) (buf s').
Proof.
  intros Hinv. unfold invoke.
  destruct (pcs s t) eqn:Hpc; try discriminate.
  intros H; injection H as <- <-. split; [| reflexivity].
  constructor.
  - apply (inv_cap Hinv).
  - intros t'. destruct c; mtx_case Hinv t t' Hpc.
  - intros t'. destruct c; mtx_case Hinv t t' Hpc.
  - intros t' d'. simpl. unfold upd.
    destruct (Nat.eqb_spec t' t) as [-> | ?];
      [destruct c; discriminate | apply (inv_append Hinv)].
  - intros t'. simpl. unfold upd.
    destruct (Nat.eqb_spec t' t) as [-> | ?];
      [destruct c; discriminate | apply (inv_front Hinv)].
  - intros t' d'. simpl. unfold upd.
    destruct (Nat.eqb_spec t' t) as [-> | ?];
      [destruct c; discriminate | apply (inv_remove Hinv)].
Qed.

Ltac other_thread Hinv t t' :=
  simpl; unfold upd; destruct (Nat.eqb_spec t' t) as [-> | ?].

Ltac silent_case Hinv t Hpc :=
  split; [| reflexivity];
  constructor;
  [ apply (inv_cap Hinv)
  | let t' := fresh "t'" in intros t'; mtx_case Hinv t t' Hpc
  | let t' := fresh "t'" in intros t'; mtx_case Hinv t t' Hpc
  | let t' := fresh "t'" in
    intros t' ?; other_thread Hinv t t';
    [try discriminate | apply (inv_append Hinv)]
  | let t' := fresh "t'" in
    intros t'; other_thread Hinv t t';
    [try discriminate | apply (inv_front Hinv)]
  | let t' := fresh "t'" in
    intros t' ?; other_thread Hinv t t';
    [try discriminate | apply (inv_remove Hinv)] ].

Lemma advance_preserves t s l s' :
  inv s -> advance t s = Some (l, s') ->
  inv s' /\ refines l (buf s) (buf s').
Proof.
  intros Hinv. unfold advance.
  destruct (pcs s t) eqn:Hpc; try discriminate.
  - (* PushLock *)
    destruct (producer_mtx_ s) eqn:E; [discriminate |].
    intros H; injection H as <- <-. silent_case Hinv t Hpc.
  - (* PushWait *)
    destruct (q_size (buf s) <? cap_ (buf s))%N eqn:E;
      intros H; injection H as <- <-; silent_case Hinv t Hpc.
    intros _. now apply N.ltb_lt.
  - (* PushBlocked *)
    destruct (producer_mtx_ s) eqn:E; [discriminate |].
    intros H; injection H as <- <-. silent_case Hinv t Hpc.
  - (* PushAppend *)
    simpl. intros H; injection H as <- <-.
    pose proof (inv_append Hinv _ Hpc) as Hroom.
    split; [| simpl; now apply push_enabled].
    constructor.
    + simpl. rewrite q_size_app. simpl. lia.
    + intros t'. mtx_case Hinv t t' Hpc.
    + intros t'. mtx_case Hinv t t' Hpc.
    + intros t' d'. other_thread Hinv t t'; [discriminate |].
      intros Hpc'. exfalso.
      assert (t = t') by
        (apply (producer_mutex _ _ Hinv); [rewrite Hpc | rewrite Hpc'];
         reflexivity).
      congruence.
    + intros t'. other_thread Hinv t t'; [discriminate |].
      intros _. now destruct (q_ (buf s)).
    + intros t' d'. other_thread Hinv t t'; [discriminate |].
      intros Hpc'. destruct (inv_remove Hinv _ Hpc') as [rest Hq].
      rewrite Hq. now exists (rest ++ [data]).
  - (* PushUnlock *)
    intros H; injection H as <- <-. silent_case Hinv t Hpc.
  - (* PushNotify *)
    intros H; injection H as <- <-. silent_case Hinv t Hpc.
  - (* PopLock *)
    destruct (consumer_mtx_ s) eqn:E; [discriminate |].
    intros H; injection H as <- <-. silent_case Hinv t Hpc.
  - (* PopWait *)
    destruct (negb (q_empty (buf s))) eqn:E;
      intros H; injection H as <- <-; silent_case Hinv t Hpc.
    intros _. unfold q_empty in E. now destruct (q_ (buf s)).
  - (* PopBlocked *)
    destruct (consumer_mtx_ s) eqn:E; [discriminate |].
    intros H; injection H as <- <-. silent_case Hinv t Hpc.
  - (* PopFront *)
    unfold q_front. destruct (q_ (buf s)) as [| x rest] eqn:E;
      [discriminate |].
    intros H; injection H as <- <-. silent_case Hinv t Hpc.
    intros H; injection H as <-. rewrite E. now exists rest.
  - (* PopRemove *)
    destruct (inv_remove Hinv _ Hpc) as [rest Hq].
    unfold q_pop. rewrite Hq.
    intros H; injection H as <- <-.
    pose proof (inv_cap Hinv) as Hcap.
    assert (Hsz : q_size (buf s) = (N.of_nat (length rest) + 1)%N)
      by (unfold q_size; rewrite Hq; simpl; lia).
    split.
    2:{ simpl. destruct (buf s) as [q c]; simpl in *. subst q.
        reflexivity. }
    constructor.
    + simpl. unfold q_size at 1. simpl. lia.
    + intros t'. mtx_case Hinv t t' Hpc.
    + intros t'. mtx_case Hinv t t' Hpc.
    + intros t' d'. other_thread Hinv t t'; [discriminate |].
      intros Hpc'. pose proof (inv_append Hinv _ Hpc').
      unfold q_size at 1. simpl. lia.
    + intros t'. other_thread Hinv t t'; [discriminate |].
      intros Hpc'. exfalso.
      assert (t = t') by
        (apply (consumer_mutex _ _ Hinv); [rewrite Hpc | rewrite Hpc'];
         reflexivity).
      congruence.
    + intros t' d'. other_thread Hinv t t'; [discriminate |].
      intros Hpc'. exfalso.
      assert (t = t') by
        (apply (consumer_mutex _ _ Hinv); [rewrite Hpc | rewrite Hpc'];
         reflexivity).
      congruence.
  - (* PopUnlock *)
    intros H; injection H as <- <-. silent_case Hinv t Hpc.
  - (* PopNotify *)
    intros H; injection H as <- <-. silent_case Hinv t Hpc.
Qed.

(** Under the invariant a thread can only fail to execute its line because
    it is idle or because the mutex it needs is taken: [q_.front()] and
    [q_.pop()] are never reached on an empty queue. *)
Lemma advance_stuck t s :
  inv s -> advance t s = None ->
  pcs s t = Idle \/
  (exists d, pcs s t = PushLock d \/ pcs s t = PushBlocked d) /\
    producer_mtx_ s <> None \/
  (pcs s t = PopLock \/ pcs s t = PopBlocked) /\ consumer_mtx_ s <> None.
Proof.
  intros Hinv. unfold advance.
  destruct (pcs s t) eqn:Hpc; try discriminate; auto.
  - destruct (producer_mtx_ s); [| discriminate].
    intros _. right; left. split; [eauto | discriminate].
  - destruct (q_size (buf s) <? cap_ (buf s))%N; discriminate.
  - destruct (producer_mtx_ s); [| discriminate].
    intros _. right; left. split; [eauto | discriminate].
  - destruct (consumer_mtx_ s); [| discriminate].
    intros _. right; right. split; [auto | discriminate].
  - destruct (negb (q_empty (buf s))); discriminate.
  - destruct (consumer_mtx_ s); [| discriminate].
    intros _. right; right. split; [auto | discriminate].
  - pose proof (inv_front Hinv _ Hpc) as Hne. unfold q_front.
    destruct (q_ (buf s)); [contradiction | discriminate].
  - destruct (inv_remove Hinv _ Hpc) as [rest Hq]. unfold q_pop.
    rewrite Hq. discriminate.
Qed.

(** Every step of the threaded machine keeps the invariant and is, on the
    buffer, either no change or one enabled atomic operation. *)
Theorem step_refines a s l s' :
  inv s -> thread_step a s = Some (l, s') ->
  inv s' /\ refines l (buf s) (buf s').
Proof.
  destruct a as [t c | t]; simpl.
  - apply invoke_preserves.
  - apply advance_preserves.
Qed.

(** Hence every execution of a schedule is, on the buffer, a run of atomic
    steps with the same popped values. *)
Theorem exec_refines (sched : list (action T)) : forall s ls s',
  inv s -> exec sched s = Some (ls, s') ->
  inv s' /\ run (ops_of ls) (buf s) = Some (outs_of ls, buf s').
Proof.
  induction sched as [| a sched IH]; intros s ls s' Hinv H.
  - injection H as <- <-. now split.
  - simpl in H.
    destruct (thread_step a s) as [[l s1] |] eqn:Hs; [| discriminate].
    destruct (exec sched s1) as [[ls1 s2] |] eqn:He; [| discriminate].
    injection H as <- <-.
    destruct (step_refines _ Hinv Hs) as [Hinv1 Hl].
    destruct (IH _ _ _ Hinv1 He) as [Hinv2 Hrun].
    split; [assumption |].
    destruct l as [| d | d]; simpl in *.
    + now rewrite <- Hl.
    + now rewrite Hl, Hrun.
    + now rewrite Hl, Hrun.
Qed.

(** The capacity invariant under every interleaving: whatever the scheduler
    does, the occupancy never exceeds the capacity the buffer was constructed
    with, and both mutexes exclude. *)
Theorem threads_capacity_invariant (cap : N) (sched : list (action T)) ls s :
  exec sched (init cap) = Some (ls, s) ->
  (q_size (buf s) <= cap)%N /\ cap_ (buf s) = cap /\ inv s.
Proof.
  intros H. destruct (exec_refines _ (inv_init cap) H) as [Hinv Hrun].
  pose proof (run_cap _ _ Hrun) as Hc. simpl in Hc.
  pose proof (inv_cap Hinv) as Hb. rewrite Hc in Hb. auto.
Qed.

(** First in, first out under every interleaving: the values appended so
    far are the values removed so far followed by the queue. *)
Theorem threads_fifo (cap : N) (sched : list (action T)) ls s :
  exec sched (init cap) = Some (ls, s) ->
  pushed (ops_of ls) = outs_of ls ++ q_ (buf s).
Proof.
  intros H. destruct (exec_refines _ (inv_init cap) H) as [_ Hrun].
  now apply run_fifo in Hrun.
Qed.

(** With capacity zero no thread ever appends or removes, under any
    schedule: every caller of [push] stays in front of line 27. *)
Theorem threads_capacity_zero (sched : list (action T)) ls s :
  exec sched (init 0) = Some (ls, s) ->
  ops_of ls = [] /\ q_ (buf s) = [] /\
  (forall t d, pcs s t <> PushAppend d).
Proof.
  intros H. destruct (exec_refines _ (inv_init 0) H) as [Hinv Hrun].
  destruct (ops_of ls) as [| [d |] ops] eqn:E; try discriminate Hrun.
  injection Hrun as _ <-. simpl.
  split; [reflexivity |]. split; [reflexivity |].
  intros t d Hpc.
  pose proof (inv_append Hinv _ Hpc) as Hlt.
  pose proof (inv_cap Hinv) as Hle.
  apply threads_capacity_invariant in H as (Hb & Hc & _).
  rewrite Hc in Hlt. lia.
Qed.

End ThreadFacts.

(** The scenario with capacity two on the threaded machine: the producer
    thread completes [push(1)] and [push(2)] and is back outside the buffer
    before any pop; its [push(3)] then ends up inside [wait]. *)
Example threads_scenario_two_pushes :
  match exec (call_steps 0 (CallPush (Some 1%Z)) 5 ++
              call_steps 0 (CallPush (Some 2%Z)) 5) (init 2) with
  | Some (ls, s) =>
      ops_of ls = [Push (Some 1%Z); Push (Some 2%Z)] /\
      pcs s 0 = Idle /\
      q_ (buf s) = [Some 1%Z; Some 2%Z]
  | None => False
  end.
Proof. vm_compute. repeat split. Qed.

Example threads_scenario_third_push_blocks :
  match exec (call_steps 0 (CallPush (Some 1%Z)) 5 ++
              call_steps 0 (CallPush (Some 2%Z)) 5 ++
              call_steps 0 (CallPush (Some 3%Z)) 2) (init 2) with
  | Some (ls, s) =>
      ops_of ls = [Push (Some 1%Z); Push (Some 2%Z)] /\
      pcs s 0 = PushBlocked (Some 3%Z) /\
      producer_mtx_ s = None
  | None => False
  end.
Proof. vm_compute. repeat split. Qed.

(** * Concrete instances

    Each statement above that has premises, instantiated on a small buffer
    of integers on which the premises hold. *)

Section Instances.

Local Open Scope Z_scope.

Lemma capacity_invariant_witness :
  (0 <= occupancy (mkBuffer [Some 7] 2) <= 2)%N /\
  cap_ (mkBuffer [Some 7] 2) = 2%N.
Proof.
  apply (@capacity_invariant Z 2 [Push (Some 5); Push (Some 7); Pop]
           [Some 5] (mkBuffer [Some 7] 2)).
  - lia.
  - reflexivity.
Defined.

Lemma fifo_order_witness :
  (nth_error [Some 5; None] 0 = Some (Some 5) /\
   nth_error [Some 5; None] 1 = Some None) /\
  run (map (@Push Z) [Some 1; None; Some 3] ++ repeat Pop 3) (construct 4) =
    Some ([Some 1; None; Some 3], construct 4).
Proof.
  destruct (@fifo_order Z (construct 4)) as [Horder Hdrain].
  split.
  - destruct (Horder [Push (Some 5); Push None; Pop; Push (Some 9); Pop]
                [Some 5; None] (mkBuffer [Some 9] 4) eq_refl) as [_ Hij].
    destruct (Hij 0%nat 1%nat (Some 5) None) as (_ & HA & HB).
    + lia.
    + reflexivity.
    + reflexivity.
    + simpl. lia.
    + split; [exact HA | exact HB].
  - apply (Hdrain [Some 1; None; Some 3]).
    + reflexivity.
    + simpl. lia.
Defined.

Lemma push_appends_witness :
  exists b',
    push (Some 4) (mkBuffer [Some 1] 2) = Some (tt, b') /\
    q_ b' = [Some 1] ++ [Some 4] /\
    occupancy b' = (occupancy (mkBuffer [Some 1] 2) + 1)%N /\
    cap_ b' = 2%N.
Proof.
  apply (@push_appends Z (Some 4) (mkBuffer [Some 1] 2)).
  unfold occupancy, q_size. simpl. lia.
Defined.

Lemma pop_removes_head_witness :
  exists d b',
    pop (mkBuffer [Some 1; None] 2) = Some (d, b') /\
    hd_error [Some 1; None] = Some d /\
    [Some 1; None] = d :: q_ b' /\
    (occupancy b' + 1 = occupancy (mkBuffer [Some 1; None] 2))%N /\
    cap_ b' = 2%N /\
    (d = None \/ exists x : Z, d = Some x).
Proof.
  apply (@pop_removes_head Z (mkBuffer [Some 1; None] 2)).
  unfold occupancy, q_size. simpl. lia.
Defined.

Lemma scenario_capacity_two_witness :
  [Some 1; Some 2; Some 3] = [Some 1; Some 2; Some 3] /\
  construct 2 = @construct Z 2 /\
  (forall pre post,
      [Push (Some 1); Push (Some 2); Pop; Push (Some 3); Pop; Pop] =
        pre ++ Push (Some 3) :: post -> (1 <= pops pre)%nat) /\
  run [Push (Some 1); Push (Some 2)] (construct 2) =
    Some ([], mkBuffer [Some 1; Some 2] 2) /\
  push (Some 3) (mkBuffer [Some 1; Some 2] 2) = None.
Proof.
  apply (@scenario_capacity_two
           [Push (Some 1); Push (Some 2); Pop; Push (Some 3); Pop; Pop]
           [Some 1; Some 2; Some 3] (construct 2)).
  - exact scenario_producer_first.
  - reflexivity.
Defined.

Lemma conservation_witness :
  count_payloads [Some 1; Some 2; @None Z] = (2 * 1)%nat /\
  count_eos [Some 1; Some 2; @None Z] =
    count_eos (pushed (steps_of
      [(0%nat, Push (Some 1)); (1%nat, Push (Some 2)); (2%nat, Push None);
       (3%nat, Pop); (4%nat, Pop); (3%nat, Pop)])) /\
  [Some 1; Some 2; None] =
    pushed (steps_of
      [(0%nat, Push (Some 1)); (1%nat, Push (Some 2)); (2%nat, Push None);
       (3%nat, Pop); (4%nat, Pop); (3%nat, Pop)]).
Proof.
  apply (@conservation Z 2 1 [0%nat; 1%nat]
           [(0%nat, Push (Some 1)); (1%nat, Push (Some 2));
            (2%nat, Push None); (3%nat, Pop); (4%nat, Pop); (3%nat, Pop)]
           3 [Some 1; Some 2; None] (construct 3)).
  - repeat constructor; simpl; intuition lia.
  - reflexivity.
  - intros t [<- | [<- | []]]; reflexivity.
  - intros t x H. simpl in H.
    repeat (destruct H as [H | H];
            [first [discriminate H | injection H as <- _; simpl; tauto] |]).
    destruct H.
  - reflexivity.
  - reflexivity.
Defined.

Lemma producer_done_is_push_eos_witness :
  times 2 producer_done (mkBuffer [Some 1] 3) =
    Some (tt, mkBuffer ([Some 1] ++ repeat None 2) 3) /\
  run (repeat (Push None) 2 ++ repeat Pop 2) (@construct Z 2) =
    Some (repeat None 2, construct 2).
Proof.
  split.
  - destruct (@producer_done_is_push_eos Z (mkBuffer [Some 1] 3))
      as (_ & _ & _ & Htimes & _).
    apply (Htimes 2%nat). unfold occupancy, q_size. simpl. lia.
  - destruct (@producer_done_is_push_eos Z (construct 2))
      as (_ & _ & _ & _ & _ & _ & Hdrain).
    apply (Hdrain 2%nat); [reflexivity | simpl; lia].
Defined.

Lemma capacity_zero_never_pushes_witness :
  @nil (op Z) = [] /\ construct 0 = @construct Z 0 /\
  q_ (@construct Z 0) = [] /\ cap_ (@construct Z 0) = 0%N /\
  (q_size (@construct Z 0) <? cap_ (@construct Z 0))%N = false /\
  (forall d, push d (@construct Z 0) = None) /\
  producer_done (@construct Z 0) = None /\
  pushed (@nil (op Z)) = [] /\ @nil (slot Z) = [].
Proof.
  apply (@capacity_zero_never_pushes Z [] [] (construct 0)).
  reflexivity.
Defined.

Lemma frame_witness :
  q_ (mkBuffer [Some 1; Some 4] 2) = [Some 1] ++ [Some 4] /\
  [Some 1; None] = Some 1 :: q_ (mkBuffer [@None Z] 2) /\
  cap_ (mkBuffer [@None Z] 2) = 2%N.
Proof.
  destruct (@frame Z (mkBuffer [Some 1] 2)) as (Hpush & _ & _).
  destruct (@frame Z (mkBuffer [Some 1; None] 2)) as (_ & Hpop & _).
  destruct (Hpush (Some 4) (mkBuffer [Some 1; Some 4] 2) eq_refl)
    as (Hq & _).
  destruct (Hpop (Some 1) (mkBuffer [None] 2) eq_refl) as (Hq' & _ & Hc).
  split; [exact Hq | split; [exact Hq' | exact Hc]].
Defined.

End Instances.

(** * Further properties of the atomic operations *)

Import Counting.

Section RunFacts.

Variable T : Type.
Implicit Types (b : BoundedBuffer T) (d : slot T) (ops : list (op T)).

(** What a run does to the number of elements. *)
Lemma run_count ops : forall b outs b',
  run ops b = Some (outs, b') ->
  length (q_ b) + pushes ops = pops ops + length (q_ b').
Proof.
  intros b outs b' H. unfold pushes.
  pose proof (run_fifo _ _ H) as Hf.
  apply (f_equal (@length _)) in Hf. rewrite !length_app in Hf.
  rewrite (run_outs_length _ _ H) in Hf. exact Hf.
Qed.

Lemma pushes_cons_push d ops : pushes (Push d :: ops) = S (pushes ops).
Proof. reflexivity. Qed.

Lemma pushes_cons_pop ops : pushes (@Pop T :: ops) = pushes ops.
Proof. reflexivity. Qed.

Lemma run_cons_enabled o ops b out b1 :
  step o b = Some (out, b1) ->
  (run (o :: ops) b <> None <-> run ops b1 <> None).
Proof.
  intros Hs. simpl. rewrite Hs.
  destruct (run ops b1) as [[outs b2] |]; split; congruence.
Qed.

(** With capacity one a run is enabled exactly when it alternates, starting
    with a push on an empty buffer and with a pop on a full one. *)
Lemma run_alternates ops : forall b,
  cap_ b = 1%N -> (q_size b <= 1)%N ->
  (run ops b <> None <-> alternates (q_empty b) ops = true).
Proof.
  induction ops as [| o ops IH]; intros b Hc Hb.
  - simpl. split; [reflexivity | discriminate].
  - destruct b as [q c]. simpl in Hc. subst c.
    destruct o as [d |]; destruct q as [| x [| y q]];
      unfold q_size in Hb; simpl in Hb; try lia.
    + (* push on the empty buffer *)
      rewrite (@run_cons_enabled (Push d) ops (mkBuffer [] 1) None
                 (mkBuffer [d] 1) eq_refl).
      rewrite IH by (unfold q_size; simpl; reflexivity || lia).
      reflexivity.
    + (* push on the full buffer *)
      simpl. split; [congruence | discriminate].
    + (* pop on the empty buffer *)
      simpl. split; [congruence | discriminate].
    + (* pop on the full buffer *)
      rewrite (@run_cons_enabled Pop ops (mkBuffer [x] 1) (Some x)
                 (mkBuffer [] 1) eq_refl).
      rewrite IH by (unfold q_size; simpl; reflexivity || lia).
      reflexivity.
Qed.

(** X1 (which runs are enabled).  On a buffer that respects its capacity, a
    sequence of pushes and pops can be run to its end exactly when, after
    every prefix, no more elements have been popped than were there or
    pushed, and the elements there or pushed and not yet popped fit the
    capacity.  The values pushed play no part. *)
Theorem run_enabled_iff_counts ops : forall b,
  (q_size b <= cap_ b)%N ->
  (run ops b <> None <->
   forall n,
     pops (firstn n ops) <= length (q_ b) + pushes (firstn n ops) /\
     (N.of_nat (length (q_ b) + pushes (firstn n ops) - pops (firstn n ops))
      <= cap_ b)%N).
Proof.
  induction ops as [| o ops IH]; intros b Hb.
  - split; [| discriminate].
    intros _ n. rewrite firstn_nil. unfold pushes, q_size in *. simpl.
    split; [lia |]. rewrite Nat.add_0_r, Nat.sub_0_r. exact Hb.
  - split.
    + intros Hrun n.
      destruct (run (o :: ops) b) as [[outs b'] |] eqn:E; [| congruence].
      rewrite <- (firstn_skipn n (o :: ops)) in E.
      apply run_prefix in E as (outs1 & b1 & _ & Hpre & _ & _).
      pose proof (run_count _ _ Hpre) as Hcount.
      pose proof (run_bounded _ _ Hpre Hb) as Hb1.
      rewrite (run_cap _ _ Hpre) in Hb1. unfold q_size in Hb1.
      split; [lia |].
      replace (length (q_ b) + pushes (firstn n (o :: ops)) -
               pops (firstn n (o :: ops))) with (length (q_ b1)) by lia.
      exact Hb1.
    + intros Hall.
      pose proof (Hall 1) as H1. simpl firstn in H1.
      destruct o as [d |].
      * rewrite pushes_cons_push in H1. simpl in H1.
        assert (Hroom : (q_size b < cap_ b)%N) by (unfold q_size; lia).
        rewrite (@run_cons_enabled (Push d) ops b None
                   (mkBuffer (q_ b ++ [d]) (cap_ b))).
        2:{ simpl. now rewrite push_enabled. }
        apply IH.
        -- rewrite q_size_app. simpl. lia.
        -- intros n. specialize (Hall (S n)). simpl firstn in Hall.
           rewrite pushes_cons_push in Hall. simpl in Hall |- *.
           rewrite length_app. simpl.
           split; [lia |].
           replace (length (q_ b) + 1 + pushes (firstn n ops) -
                    pops (firstn n ops))
             with (length (q_ b) + S (pushes (firstn n ops)) -
                   pops (firstn n ops)) by lia.
           tauto.
      * rewrite pushes_cons_pop in H1. simpl in H1.
        destruct b as [[| x rest] c]; simpl in H1; [unfold pushes in H1; simpl in H1; lia |].
        rewrite (@run_cons_enabled Pop ops (mkBuffer (x :: rest) c) (Some x)
                   (mkBuffer rest c) eq_refl).
        apply IH.
        -- unfold q_size in *. simpl in *. lia.
        -- intros n. specialize (Hall (S n)). simpl firstn in Hall.
           rewrite pushes_cons_pop in Hall. simpl in Hall |- *.
           split; [lia |].
           replace (length rest + pushes (firstn n ops) -
                    pops (firstn n ops))
             with (S (length rest + pushes (firstn n ops)) -
                   S (pops (firstn n ops))) by lia.
           tauto.
Qed.

(** X2 (occupancy accounting).  After any run, [size] answers the number of
    elements at the start plus the number of pushes minus the number of
    pops, and leaves the buffer as it is. *)
Theorem size_after_run ops b outs b' :
  run ops b = Some (outs, b') ->
  pops ops <= length (q_ b) + pushes ops /\
  size b' = Some (N.of_nat (length (q_ b) + pushes ops - pops ops), b').
Proof.
  intros H. pose proof (run_count _ _ H) as Hc.
  split; [lia |].
  unfold size, q_size. do 3 f_equal. lia.
Qed.

(** X3 (capacity one).  On a fresh buffer of capacity one a sequence of
    steps can be run exactly when it alternates push, pop, push, pop, ...,
    starting with a push: a second push cannot proceed before the value of
    the first is popped. *)
Theorem capacity_one_alternates ops :
  run ops (@construct T 1) <> None <-> alternates true ops = true.
Proof.
  apply (run_alternates ops (construct 1)); [reflexivity |].
  unfold q_size; simpl. lia.
Qed.

(** X4 (push, then pop).  A push with room followed by a pop always
    succeeds.  It returns the old head when there is one, so the value just
    pushed only comes back from an empty buffer, which is then empty
    again. *)
Theorem push_then_pop d b :
  (occupancy b < cap_ b)%N ->
  bind (push d) (fun _ => pop) b =
    Some (hd d (q_ b), mkBuffer (tl (q_ b ++ [d])) (cap_ b)) /\
  (q_ b = [] -> bind (push d) (fun _ => pop) b = Some (d, b)).
Proof.
  intros H. unfold bind. rewrite push_enabled by exact H.
  destruct b as [[| x rest] c]; simpl.
  - split; [reflexivity |]. intros _. reflexivity.
  - split; [reflexivity | discriminate].
Qed.

End RunFacts.

(** * The clients running alone *)

Import Clients.

Section ClientFacts.

Local Open Scope Z_scope.

Implicit Types (b : BoundedBuffer Z) (id : Z) (vs : list Z).

Lemma interp_consumer_eos (n : nat) id vs :
  forall (rest : list (slot Z)) (c : N),
  (length vs < n)%nat ->
  interp (consumer_from n id) (mkBuffer (payloads vs ++ None :: rest) c) =
  Some (tagged id vs, mkBuffer rest c).
Proof.
  revert n. induction vs as [| v vs IH]; intros n rest c Hn.
  - destruct n as [| n]; [simpl in Hn; lia |]. reflexivity.
  - destruct n as [| n]; [simpl in Hn; lia |].
    simpl in Hn.
    change (interp (consumer_from (S n) id)
              (mkBuffer (payloads (v :: vs) ++ None :: rest) c))
      with (bind (interp (consumer_from n id))
              (fun r => ret ((id, v) :: r))
              (mkBuffer (payloads vs ++ None :: rest) c)).
    unfold bind. rewrite IH by lia. reflexivity.
Qed.

Lemma interp_consumer_full (n : nat) id :
  forall vs (rest : list (slot Z)) (c : N),
  length vs = n ->
  interp (consumer_from n id) (mkBuffer (payloads vs ++ rest) c) =
  Some (tagged id vs, mkBuffer rest c).
Proof.
  induction n as [| n IH]; intros vs rest c Hn.
  - destruct vs; [reflexivity | discriminate].
  - destruct vs as [| v vs]; [discriminate |].
    change (interp (consumer_from (S n) id)
              (mkBuffer (payloads (v :: vs) ++ rest) c))
      with (bind (interp (consumer_from n id))
              (fun r => ret ((id, v) :: r))
              (mkBuffer (payloads vs ++ rest) c)).
    unfold bind. rewrite IH by (simpl in Hn; lia). reflexivity.
Qed.

Lemma interp_consumer_blocks (n : nat) id : forall b,
  interp (consumer_from n id) b = None <->
  (length (q_ b) < n)%nat /\ forallb is_payload (q_ b) = true.
Proof.
  induction n as [| n IH]; intros [q c].
  - simpl. split; [discriminate | lia].
  - destruct q as [| [v |] q].
    + simpl. split; [intros _; split; [lia | reflexivity] | reflexivity].
    + change (interp (consumer_from (S n) id) (mkBuffer (Some v :: q) c))
        with (bind (interp (consumer_from n id))
                (fun r => ret ((id, v) :: r)) (mkBuffer q c)).
      unfold bind. specialize (IH (mkBuffer q c)). simpl in IH |- *.
      destruct (interp (consumer_from n id) (mkBuffer q c)) as [[r b1] |].
      * split; [discriminate |]. intros [Hl Hp].
        assert (Hq : (length q < n)%nat) by lia.
        destruct IH as [_ IH]. discriminate (IH (conj Hq Hp)).
      * destruct IH as [IH _]. destruct (IH eq_refl) as [Hl Hp].
        split; [intros _; split; [lia | exact Hp] | reflexivity].
    + simpl. split; [discriminate | intros [_ H]; discriminate].
Qed.

(** X5 (the consumer stops at the marker).  Alone on a buffer that holds
    fewer than 32 payloads followed by an end-of-stream marker, [consumer]
    writes one line per payload, in order and with its own id, consumes the
    marker, and returns; whatever lies behind the marker stays in the
    buffer. *)
Theorem consumer_stops_at_eos id vs (rest : list (slot Z)) (c : N) :
  (length vs < 32)%nat ->
  interp (consumer id) (mkBuffer (payloads vs ++ None :: rest) c) =
  Some (tagged id vs, mkBuffer rest c).
Proof. apply interp_consumer_eos. Qed.

(** X6 (the consumer stops after 32 payloads).  Alone on a buffer whose
    first 32 elements are payloads, [consumer] writes these 32 lines and
    returns without another pop: an end-of-stream marker that comes next
    is left in the buffer. *)
Theorem consumer_stops_after_32 id vs (rest : list (slot Z)) (c : N) :
  length vs = 32%nat ->
  interp (consumer id) (mkBuffer (payloads vs ++ rest) c) =
  Some (tagged id vs, mkBuffer rest c).
Proof. apply interp_consumer_full. Qed.

(** X7 (when the consumer blocks).  Alone on a buffer, [consumer] blocks
    exactly when the buffer holds fewer than 32 elements and none of them is
    an end-of-stream marker. *)
Theorem consumer_blocks_iff id b :
  interp (consumer id) b = None <->
  (length (q_ b) < 32)%nat /\ forallb is_payload (q_ b) = true.
Proof. apply interp_consumer_blocks. Qed.

Lemma feed_consumer (n : nat) id : forall results : list (slot Z),
  let r := feed (consumer_from n id) results in
  written r = tagged id (payload_prefix n results) /\
  sent r = [] /\
  (popped r <= n)%nat /\
  (popped r <= length results)%nat /\
  (length (written r) <= popped r <= S (length (written r)))%nat /\
  ((length (written r) < popped r)%nat -> residual r = Return) /\
  (length (written r) = n -> residual r = Return).
Proof.
  induction n as [| n IH]; intros results.
  - simpl. repeat split; auto; lia.
  - destruct results as [| [v |] rest].
    + simpl. repeat split; auto; try lia; discriminate.
    + specialize (IH rest). simpl in IH.
      destruct IH as (Hw & Hs & Hn & Hl & Hb & Hr & Hf).
      simpl. rewrite Hw. unfold tagged in *. simpl.
      repeat split; auto; try lia.
      * rewrite <- Hw. simpl. lia.
      * rewrite <- Hw. simpl. lia.
      * intros H. apply Hr. rewrite Hw. lia.
      * intros H. apply Hf. rewrite Hw. lia.
    + simpl. repeat split; auto; lia.
Qed.

(** X8 (the consumer among other threads).  Whatever the values its pops
    return, [consumer] never pushes, pops at most 32 times, and writes
    exactly the payloads it was given up to the first end-of-stream marker
    (32 at most), each with its own id.  Once a pop has returned the marker,
    or 32 lines are written, it has returned: it pops nothing further. *)
Theorem consumer_behaviour id (results : list (slot Z)) :
  let r := feed (consumer id) results in
  written r = tagged id (payload_prefix 32 results) /\
  sent r = [] /\
  (popped r <= 32)%nat /\
  (popped r <= length results)%nat /\
  (length (written r) <= popped r <= S (length (written r)))%nat /\
  ((length (written r) < popped r)%nat -> residual r = Return) /\
  (length (written r) = 32%nat -> residual r = Return).
Proof. apply feed_consumer. Qed.

Lemma counting_succ (i : Z) (n : nat) :
  counting i (S n) = i :: counting (i + 1) n.
Proof.
  unfold counting. simpl. rewrite <- seq_shift, map_map.
  f_equal; [lia |]. apply map_ext. intros k. lia.
Qed.

Lemma interp_producer_room (n : nat) : forall (i : Z) b,
  (q_size b + N.of_nat n <= cap_ b)%N ->
  interp (producer_from i n) b =
  Some ([], mkBuffer (q_ b ++ payloads (counting i n)) (cap_ b)).
Proof.
  induction n as [| n IH]; intros i b H.
  - simpl. unfold ret. rewrite app_nil_r. now destruct b.
  - simpl interp. unfold bind. rewrite push_enabled by lia.
    rewrite IH.
    + rewrite counting_succ. simpl. now rewrite <- app_assoc.
    + rewrite q_size_app. simpl. lia.
Qed.

Lemma interp_producer_blocks (n : nat) : forall (i : Z) b,
  (cap_ b < q_size b + N.of_nat n)%N ->
  (q_size b <= cap_ b)%N ->
  interp (producer_from i n) b = None.
Proof.
  induction n as [| n IH]; intros i b H Hb.
  - lia.
  - simpl interp. unfold bind.
    destruct (N.lt_ge_cases (q_size b) (cap_ b)) as [Hlt | Hge].
    + rewrite push_enabled by exact Hlt. apply IH.
      * rewrite q_size_app. simpl. lia.
      * rewrite q_size_app. simpl. lia.
    + now rewrite push_blocked.
Qed.

(** X9 (the producer alone).  On a buffer that respects its capacity,
    [producer] run without any consumer returns exactly when there is room
    for 32 more elements; it then has appended 0, 1, ..., 31 in this order
    and written nothing.  With less room it blocks. *)
Theorem producer_alone b :
  (q_size b <= cap_ b)%N ->
  (interp producer_prog b <> None <-> (q_size b + 32 <= cap_ b)%N) /\
  ((q_size b + 32 <= cap_ b)%N ->
   interp producer_prog b =
   Some ([], mkBuffer (q_ b ++ payloads (map Z.of_nat (seq 0 32)))
               (cap_ b))).
Proof.
  intros Hb.
  assert (Hroom : (q_size b + 32 <= cap_ b)%N ->
                  interp producer_prog b =
                  Some ([], mkBuffer (q_ b ++ payloads (counting 0 32))
                              (cap_ b))).
  { intros H. apply interp_producer_room. simpl. exact H. }
  split.
  - split.
    + intros Hrun.
      destruct (N.le_gt_cases (q_size b + 32) (cap_ b)) as [| Hgt];
        [assumption |].
      exfalso. apply Hrun. apply interp_producer_blocks; [| exact Hb].
      simpl. exact Hgt.
    + intros H. rewrite (Hroom H). discriminate.
  - intros H. rewrite (Hroom H). reflexivity.
Qed.

End ClientFacts.

(** * Properties of the machine with condition variables *)

Import Monitor.

Section MonitorFacts.

Variable T : Type.
Implicit Types (s : config T) (t : tid) (a : action T).

Lemma mon_inv_init (cap : N) : inv (@init T cap).
Proof.
  constructor; simpl; try discriminate.
  - unfold q_size; simpl. lia.
  - intros t; split; discriminate.
  - intros t; split; discriminate.
Qed.

Lemma mon_producer_mutex s t t' :
  inv s ->
  holds_producer_mtx (pcs s t) = true ->
  holds_producer_mtx (pcs s t') = true -> t = t'.
Proof.
  intros Hinv H1 H2.
  apply (inv_producer Hinv) in H1. apply (inv_producer Hinv) in H2.
  congruence.
Qed.

Lemma mon_consumer_mutex s t t' :
  inv s ->
  holds_consumer_mtx (pcs s t) = true ->
  holds_consumer_mtx (pcs s t') = true -> t = t'.
Proof.
  intros Hinv H1 H2.
  apply (inv_consumer Hinv) in H1. apply (inv_consumer Hinv) in H2.
  congruence.
Qed.

(** A [notify_all] moves sleeping threads only, so it keeps the
    invariant. *)
Lemma mon_inv_notify_consumers s :
  inv s -> inv (notify_all (@wake_consumer T) s).
Proof.
  intros Hinv. constructor; simpl.
  - apply (inv_cap Hinv).
  - intros t. rewrite <- (inv_producer Hinv t). now destruct (pcs s t).
  - intros t. rewrite <- (inv_consumer Hinv t). now destruct (pcs s t).
  - intros t d H.
    assert (H' : pcs s t = PushAppend d)
      by (destruct (pcs s t); simpl in H; congruence).
    exact (inv_append Hinv _ H').
  - intros t H.
    assert (H' : pcs s t = PopFront)
      by (destruct (pcs s t); simpl in H; congruence).
    exact (inv_front Hinv _ H').
  - intros t d H.
    assert (H' : pcs s t = PopRemove d)
      by (destruct (pcs s t); simpl in H; congruence).
    exact (inv_remove Hinv _ H').
Qed.

Lemma mon_inv_notify_producers s :
  inv s -> inv (notify_all (@wake_producer T) s).
Proof.
  intros Hinv. constructor; simpl.
  - apply (inv_cap Hinv).
  - intros t. rewrite <- (inv_producer Hinv t). now destruct (pcs s t).
  - intros t. rewrite <- (inv_consumer Hinv t). now destruct (pcs s t).
  - intros t d H.
    assert (H' : pcs s t = PushAppend d)
      by (destruct (pcs s t); simpl in H; congruence).
    exact (inv_append Hinv _ H').
  - intros t H.
    assert (H' : pcs s t = PopFront)
      by (destruct (pcs s t); simpl in H; congruence).
    exact (inv_front Hinv _ H').
  - intros t d H.
    assert (H' : pcs s t = PopRemove d)
      by (destruct (pcs s t); simpl in H; congruence).
    exact (inv_remove Hinv _ H').
Qed.

Ltac mon_mtx Hinv t t' Hpc :=
  let H1 := fresh "H" in let H2 := fresh "H" in
  let H3 := fresh "H" in let H4 := fresh "H" in
  pose proof (inv_producer Hinv t) as H1;
  pose proof (inv_producer Hinv t') as H2;
  pose proof (inv_consumer Hinv t) as H3;
  pose proof (inv_consumer Hinv t') as H4;
  simpl; unfold upd;
  destruct (Nat.eqb_spec t' t) as [-> | ?];
  rewrite ?Hpc in *; simpl in *;
  intuition (try congruence).

Ltac mon_other t t' :=
  simpl; unfold upd; destruct (Nat.eqb_spec t' t) as [-> | ?].

Ltac mon_silent Hinv t Hpc :=
  split; [| reflexivity];
  constructor;
  [ apply (inv_cap Hinv)
  | let t' := fresh "t'" in intros t'; mon_mtx Hinv t t' Hpc
  | let t' := fresh "t'" in intros t'; mon_mtx Hinv t t' Hpc
  | let t' := fresh "t'" in
    intros t' ?; mon_other t t';
    [try discriminate | apply (inv_append Hinv)]
  | let t' := fresh "t'" in
    intros t'; mon_other t t';
    [try discriminate | apply (inv_front Hinv)]
  | let t' := fresh "t'" in
    intros t' ?; mon_other t t';
    [try discriminate | apply (inv_remove Hinv)] ].

Lemma mon_invoke_preserves t (c : call T) s l s' :
  inv s -> invoke t c s = Some (l, s') ->
  inv s' /\ refines l (buf s) (buf s').
Proof.
  intros Hinv. unfold invoke.
  destruct (pcs s t) eqn:Hpc; try discriminate.
  intros H; injection H as <- <-.
  destruct c; mon_silent Hinv t Hpc.
Qed.

Lemma mon_spurious_preserves t s l s' :
  inv s -> spurious t s = Some (l, s') ->
  inv s' /\ refines l (buf s) (buf s').
Proof.
  intros Hinv. unfold spurious.
  destruct (pcs s t) eqn:Hpc; try discriminate;
    intros H; injection H as <- <-; mon_silent Hinv t Hpc.
Qed.

Lemma mon_advance_preserves t s l s' :
  inv s -> advance t s = Some (l, s') ->
  inv s' /\ refines l (buf s) (buf s').
Proof.
  intros Hinv. unfold advance, lock_producer, lock_consumer.
  destruct (pcs s t) eqn:Hpc; try discriminate.
  - (* PushLock *)
    destruct (producer_mtx_ s) eqn:E; [discriminate |].
    intros H; injection H as <- <-. mon_silent Hinv t Hpc.
  - (* PushTest *)
    destruct (q_size (buf s) <? cap_ (buf s))%N eqn:E;
      intros H; injection H as <- <-; mon_silent Hinv t Hpc.
    intros _. now apply N.ltb_lt.
  - (* PushSleep *)
    intros H; injection H as <- <-. mon_silent Hinv t Hpc.
  - (* PushWoken *)
    destruct (producer_mtx_ s) eqn:E; [discriminate |].
    intros H; injection H as <- <-. mon_silent Hinv t Hpc.
  - (* PushAppend *)
    simpl. intros H; injection H as <- <-.
    pose proof (inv_append Hinv _ Hpc) as Hroom.
    split; [| simpl; now apply push_enabled].
    constructor.
    + simpl. rewrite q_size_app. simpl. lia.
    + intros t'. mon_mtx Hinv t t' Hpc.
    + intros t'. mon_mtx Hinv t t' Hpc.
    + intros t' d'. mon_other t t'; [discriminate |].
      intros Hpc'. exfalso.
      assert (t = t') by
        (apply (mon_producer_mutex _ _ Hinv); [rewrite Hpc | rewrite Hpc'];
         reflexivity).
      congruence.
    + intros t'. mon_other t t'; [discriminate |].
      intros _. now destruct (q_ (buf s)).
    + intros t' d'. mon_other t t'; [discriminate |].
      intros Hpc'. destruct (inv_remove Hinv _ Hpc') as [rest Hq].
      rewrite Hq. now exists (rest ++ [data]).
  - (* PushUnlock *)
    intros H; injection H as <- <-. mon_silent Hinv t Hpc.
  - (* PushNotify *)
    intros H; injection H as <- <-.
    pose proof (mon_inv_notify_consumers Hinv) as Hinv'.
    assert (Hpc' : pcs (notify_all (@wake_consumer T) s) t = PushNotify data)
      by (simpl; now rewrite Hpc).
    mon_silent Hinv' t Hpc'.
  - (* PopLock *)
    destruct (consumer_mtx_ s) eqn:E; [discriminate |].
    intros H; injection H as <- <-. mon_silent Hinv t Hpc.
  - (* PopTest *)
    destruct (negb (q_empty (buf s))) eqn:E;
      intros H; injection H as <- <-; mon_silent Hinv t Hpc.
    intros _. unfold q_empty in E. now destruct (q_ (buf s)).
  - (* PopSleep *)
    intros H; injection H as <- <-. mon_silent Hinv t Hpc.
  - (* PopWoken *)
    destruct (consumer_mtx_ s) eqn:E; [discriminate |].
    intros H; injection H as <- <-. mon_silent Hinv t Hpc.
  - (* PopFront *)
    unfold q_front. destruct (q_ (buf s)) as [| x rest] eqn:E;
      [discriminate |].
    intros H; injection H as <- <-. mon_silent Hinv t Hpc.
    intros H; injection H as <-. rewrite E. now exists rest.
  - (* PopRemove *)
    destruct (inv_remove Hinv _ Hpc) as [rest Hq].
    unfold q_pop. rewrite Hq.
    intros H; injection H as <- <-.
    pose proof (inv_cap Hinv) as Hcap.
    assert (Hsz : q_size (buf s) = (N.of_nat (length rest) + 1)%N)
      by (unfold q_size; rewrite Hq; simpl; lia).
    split.
    2:{ simpl. destruct (buf s) as [q c]; simpl in *. subst q.
        reflexivity. }
    constructor.
    + simpl. unfold q_size at 1. simpl. lia.
    + intros t'. mon_mtx Hinv t t' Hpc.
    + intros t'. mon_mtx Hinv t t' Hpc.
    + intros t' d'. mon_other t t'; [discriminate |].
      intros Hpc'. pose proof (inv_append Hinv _ Hpc').
      unfold q_size at 1. simpl. lia.
    + intros t'. mon_other t t'; [discriminate |].
      intros Hpc'. exfalso.
      assert (t = t') by
        (apply (mon_consumer_mutex _ _ Hinv); [rewrite Hpc | rewrite Hpc'];
         reflexivity).
      congruence.
    + intros t' d'. mon_other t t'; [discriminate |].
      intros Hpc'. exfalso.
      assert (t = t') by
        (apply (mon_consumer_mutex _ _ Hinv); [rewrite Hpc | rewrite Hpc'];
         reflexivity).
      congruence.
  - (* PopUnlock *)
    intros H; injection H as <- <-. mon_silent Hinv t Hpc.
  - (* PopNotify *)
    intros H; injection H as <- <-.
    pose proof (mon_inv_notify_producers Hinv) as Hinv'.
    assert (Hpc' : pcs (notify_all (@wake_producer T) s) t = PopNotify data)
      by (simpl; now rewrite Hpc).
    mon_silent Hinv' t Hpc'.
Qed.

Lemma mon_step_refines a s l s' :
  inv s -> thread_step a s = Some (l, s') ->
  inv s' /\ refines l (buf s) (buf s').
Proof.
  destruct a as [t c | t | t]; simpl.
  - apply mon_invoke_preserves.
  - apply mon_advance_preserves.
  - apply mon_spurious_preserves.
Qed.

Lemma mon_exec_refines (sched : list (action T)) : forall s ls s',
  inv s -> exec sched s = Some (ls, s') ->
  inv s' /\ run (ops_of ls) (buf s) = Some (outs_of ls, buf s').
Proof.
  induction sched as [| a sched IH]; intros s ls s' Hinv H.
  - injection H as <- <-. now split.
  - simpl in H.
    destruct (thread_step a s) as [[l s1] |] eqn:Hs; [| discriminate].
    destruct (exec sched s1) as [[ls1 s2] |] eqn:He; [| discriminate].
    injection H as <- <-.
    destruct (mon_step_refines _ Hinv Hs) as [Hinv1 Hl].
    destruct (IH _ _ _ Hinv1 He) as [Hinv2 Hrun].
    split; [assumption |].
    destruct l as [| d | d]; simpl in *.
    + now rewrite <- Hl.
    + now rewrite Hl, Hrun.
    + now rewrite Hl, Hrun.
Qed.

Lemma mon_reachable_inv (cap : N) (sched : list (action T)) ls s :
  exec sched (init cap) = Some (ls, s) -> inv s.
Proof.
  intros H. now destruct (mon_exec_refines _ (mon_inv_init cap) H).
Qed.

(** X10 (mutual exclusion).  Under every schedule, at most one thread is
    between taking and releasing [producer_mtx_] in [push] (lines 24 to 28,
    asleep in [wait] excepted), and at most one between taking and releasing
    [consumer_mtx_] in [pop] (lines 34 to 39). *)
Theorem monitor_mutual_exclusion (cap : N) (sched : list (action T)) ls s :
  exec sched (init cap) = Some (ls, s) ->
  (forall t t',
      holds_producer_mtx (pcs s t) = true ->
      holds_producer_mtx (pcs s t') = true -> t = t') /\
  (forall t t',
      holds_consumer_mtx (pcs s t) = true ->
      holds_consumer_mtx (pcs s t') = true -> t = t').
Proof.
  intros H. apply mon_reachable_inv in H.
  split; intros t t'.
  - now apply mon_producer_mutex.
  - now apply mon_consumer_mutex.
Qed.







(** X17 (a wake-up can be lost).  [push] changes the queue and notifies
    without holding [consumer_mtx_].  So, on any buffer with capacity at
    least one: thread 1 calls [pop], takes [consumer_mtx_] and finds the
    queue empty; before it falls asleep, thread 0 runs a whole [push],
    whose [notify_all] finds nobody asleep; then thread 1 falls asleep.
    Now the queue holds an element, both mutexes are free, [push] has
    returned, and no thread can execute a line: thread 1 sleeps until a
    later [push] notifies or a spurious wake-up occurs. *)
Theorem monitor_lost_wakeup (cap : N) (d : slot T) :
  (1 <= cap)%N ->
  exists ls s,
    exec ([Invoke 1 CallPop; Advance 1; Advance 1] ++
          push_call 0 d ++ [Advance 1]) (init cap) = Some (ls, s) /\
    ops_of ls = [Push d] /\
    q_ (buf s) = [d] /\
    pcs s 0 = Idle /\
    pcs s 1 = PopWaiting /\
    producer_mtx_ s = None /\
    consumer_mtx_ s = None /\
    (forall t, advance t s = None) /\
    (forall t, t <> 1 -> spurious t s = None).
Proof.
  intros Hcap. destruct cap as [| p]; [lia |].
  eexists. eexists. split; [reflexivity |].
  repeat split.
  - intros [| [| t]]; reflexivity.
  - intros [| [| t]] Ht; try reflexivity. congruence.
Qed.

End MonitorFacts.

(** * The threads of [main] *)

Section MainFacts.

Local Open Scope Z_scope.

Implicit Types (s : system) (t : nat) (p : prog).

Lemma values_of_app (q1 q2 : list (slot Z)) :
  values_of (q1 ++ q2) = values_of q1 ++ values_of q2.
Proof.
  induction q1 as [| [v |] q1 IH]; simpl; [reflexivity | | assumption].
  now rewrite IH.
Qed.

Lemma to_push_producer (n : nat) : forall i,
  to_push (producer_from i n) = counting i n.
Proof.
  induction n as [| n IH]; intros i; [reflexivity |].
  rewrite counting_succ. simpl. now rewrite IH.
Qed.

Lemma to_push_shutdown (n : nat) : to_push (shutdown_from n) = [].
Proof. induction n as [| n IH]; [reflexivity | exact IH]. Qed.

Lemma pending_of_consumer (n : nat) (id : Z) :
  pending_of (consumer_from n id) = [].
Proof. destruct n; reflexivity. Qed.

Lemma set_thread_same (f : nat -> prog) t p : set_thread f t p t = p.
Proof. unfold set_thread. now rewrite Nat.eqb_refl. Qed.

Lemma set_thread_other (f : nat -> prog) t t' p :
  t' <> t -> set_thread f t p t' = f t'.
Proof. intros H. unfold set_thread. now destruct (Nat.eqb_spec t' t). Qed.

Lemma flat_map_set_absent (f : prog -> list Z) (g : nat -> prog) t p
    (l : list nat) :
  ~ In t l ->
  flat_map (fun t' => f (set_thread g t p t')) l =
  flat_map (fun t' => f (g t')) l.
Proof.
  induction l as [| y l IH]; simpl; intros H; [reflexivity |].
  rewrite set_thread_other by (intros ->; tauto).
  rewrite IH by tauto. reflexivity.
Qed.

Lemma count_flat_map_set (f : prog -> list Z) (g : nat -> prog) t p
    (l : list nat) (x : Z) :
  NoDup l -> In t l ->
  (count_occ Z.eq_dec (flat_map (fun t' => f (set_thread g t p t')) l) x +
   count_occ Z.eq_dec (f (g t)) x =
   count_occ Z.eq_dec (f p) x +
   count_occ Z.eq_dec (flat_map (fun t' => f (g t')) l) x)%nat.
Proof.
  induction 1 as [| y l Hy Hnd IH]; simpl; intros Hin; [tauto |].
  rewrite !count_occ_app.
  destruct (Nat.eq_dec y t) as [-> | Hne].
  - rewrite set_thread_same. rewrite flat_map_set_absent by assumption. lia.
  - rewrite set_thread_other by assumption.
    assert (Hin' : In t l) by (destruct Hin; [congruence | assumption]).
    specialize (IH Hin'). lia.
Qed.

Lemma consumers_NoDup : NoDup consumers.
Proof. apply seq_NoDup. Qed.

Lemma in_consumers t : In t consumers <-> (2 <= t < 34)%nat.
Proof. unfold consumers, consumer_cnt. rewrite in_seq. lia. Qed.

Lemma main_inv_init : main_inv main_system.
Proof.
  constructor.
  - now exists 32%nat.
  - now exists 0, 32%nat.
  - intros id Hid. exists 32%nat. left. simpl.
    apply Nat.ltb_lt in Hid. now rewrite Hid.
  - intros t Ht. unfold consumer_cnt in Ht.
    destruct t as [| [| id]]; try lia. simpl.
    destruct (Nat.ltb_spec id consumer_cnt) as [H |]; [| reflexivity].
    unfold consumer_cnt in H. lia.
  - intros x. reflexivity.
  - constructor.
  - split; [unfold q_size; simpl; lia | reflexivity].
Qed.

Local Opaque consumers counting.

Lemma count_in_flight s (x : Z) :
  count_occ Z.eq_dec (in_flight s) x =
  (count_occ Z.eq_dec (map snd (cout s)) x +
   count_occ Z.eq_dec
     (flat_map (fun t => pending_of (pool s t)) consumers) x +
   count_occ Z.eq_dec (values_of (q_ (sbuf s))) x +
   count_occ Z.eq_dec (to_push (pool s 1)) x)%nat.
Proof. unfold in_flight. rewrite !count_occ_app. lia. Qed.

(** A step of [main] or of the producer: a push by a thread that is not a
    consumer. *)
Lemma push_step_preserves s t (d : slot Z) (k : prog) b' :
  main_inv s -> (t < 2)%nat ->
  pool s t = DoPush d k ->
  push d (sbuf s) = Some (tt, b') ->
  (exists n, set_thread (pool s) t k 0%nat = shutdown_from n) ->
  (exists i n, set_thread (pool s) t k 1%nat = producer_from i n) ->
  (forall x,
      (count_occ Z.eq_dec (values_of (q_ b')) x +
       count_occ Z.eq_dec (to_push (set_thread (pool s) t k 1%nat)) x =
       count_occ Z.eq_dec (values_of (q_ (sbuf s))) x +
       count_occ Z.eq_dec (to_push (pool s 1%nat)) x)%nat) ->
  main_inv (mkSystem b' (set_thread (pool s) t k) (cout s)).
Proof.
  intros Hinv Ht Hp Hpush H0 H1 Hcount.
  apply push_inv in Hpush as [Hroom Hb].
  constructor; cbn [pool sbuf cout].
  - exact H0.
  - exact H1.
  - intros id Hid. rewrite set_thread_other by lia.
    apply (mi_consumer Hinv Hid).
  - intros t' Ht'. rewrite set_thread_other by lia.
    apply (mi_rest Hinv Ht').
  - intros x. rewrite <- (mi_count Hinv x). rewrite !count_in_flight.
    cbn [pool sbuf cout].
    rewrite flat_map_set_absent by (rewrite in_consumers; lia).
    specialize (Hcount x). lia.
  - apply (mi_ids Hinv).
  - destruct (mi_cap Hinv) as [Hle Hc]. subst b'. simpl.
    rewrite q_size_app. split; [lia | exact Hc].
Qed.

Lemma sys_step_preserves t s s' :
  main_inv s -> sys_step t s = Some s' -> main_inv s'.
Proof.
  intros Hinv Hstep. unfold sys_step in Hstep.
  destruct t as [| [| id]].
  - (* main *)
    destruct (mi_main Hinv) as [n Hp]. rewrite Hp in Hstep.
    destruct n as [| n]; [discriminate |]. simpl in Hstep.
    destruct (push None (sbuf s)) as [[[] b'] |] eqn:E; [| discriminate].
    injection Hstep as <-.
    apply (@push_step_preserves s 0%nat None (shutdown_from n) b');
      auto; try lia.
    + exists n. apply set_thread_same.
    + rewrite set_thread_other by lia. apply (mi_producer Hinv).
    + intros x. rewrite set_thread_other by lia.
      apply push_inv in E as [_ ->]. simpl.
      rewrite values_of_app. simpl. now rewrite app_nil_r.
  - (* the producer *)
    destruct (mi_producer Hinv) as (i & n & Hp). rewrite Hp in Hstep.
    destruct n as [| n]; [discriminate |]. simpl in Hstep.
    destruct (push (Some i) (sbuf s)) as [[[] b'] |] eqn:E; [| discriminate].
    injection Hstep as <-.
    apply (@push_step_preserves s 1%nat (Some i)
             (producer_from (i + 1) n) b'); auto; try lia.
    + rewrite set_thread_other by lia. apply (mi_main Hinv).
    + exists (i + 1), n. apply set_thread_same.
    + intros x. rewrite set_thread_same, Hp.
      apply push_inv in E as [_ ->]. simpl q_.
      rewrite values_of_app, count_occ_app. simpl to_push.
      simpl values_of. simpl.
      destruct (Z.eq_dec i x); lia.
  - (* a consumer, or a thread that does not exist *)
    destruct (Nat.lt_ge_cases id consumer_cnt) as [Hid | Hid].
    2:{ rewrite (mi_rest Hinv (t:=S (S id))) in Hstep by (simpl; lia).
        discriminate. }
    assert (Hin : In (S (S id)) consumers)
      by (rewrite in_consumers; unfold consumer_cnt in Hid; lia).
    destruct (mi_consumer Hinv Hid) as [n [Hp | [v Hp]]];
      rewrite Hp in Hstep.
    + (* at the head of the loop *)
      destruct n as [| n]; [discriminate |]. simpl in Hstep.
      destruct (pop (sbuf s)) as [[d b'] |] eqn:E; [| discriminate].
      injection Hstep as <-.
      apply pop_inv in E as [Hq Hc].
      pose proof (fun x => @count_flat_map_set pending_of (pool s)
                    (S (S id))
                    (match d with
                     | Some v => DoPrint (Z.of_nat id) v
                                   (consumer_from n (Z.of_nat id))
                     | None => Return
                     end) consumers x consumers_NoDup Hin) as Hfm.
      constructor; cbn [pool sbuf cout].
      * rewrite set_thread_other by lia. apply (mi_main Hinv).
      * rewrite set_thread_other by lia. apply (mi_producer Hinv).
      * intros id' Hid'. destruct (Nat.eq_dec id' id) as [-> | Hne].
        -- rewrite set_thread_same. destruct d as [v |].
           ++ exists n. right. now exists v.
           ++ exists 0%nat. now left.
        -- rewrite set_thread_other by lia. apply (mi_consumer Hinv Hid').
      * intros t' Ht'. unfold consumer_cnt in *.
        rewrite set_thread_other by lia.
        apply (mi_rest Hinv Ht').
      * intros x. rewrite <- (mi_count Hinv x). rewrite !count_in_flight.
        cbn [pool sbuf cout]. rewrite set_thread_other by lia.
        specialize (Hfm x). rewrite Hp in Hfm. rewrite Hq.
        destruct d as [v |]; simpl in Hfm |- *.
        -- destruct (Z.eq_dec v x); lia.
        -- lia.
      * apply (mi_ids Hinv).
      * destruct (mi_cap Hinv) as [Hle Hcap]. rewrite Hc.
        split; [| exact Hcap].
        unfold q_size in *. rewrite Hq in Hle. simpl in Hle. lia.
    + (* about to write a line *)
      injection Hstep as <-.
      pose proof (fun x => @count_flat_map_set pending_of (pool s)
                    (S (S id)) (consumer_from n (Z.of_nat id)) consumers x
                    consumers_NoDup Hin) as Hfm.
      constructor; cbn [pool sbuf cout].
      * rewrite set_thread_other by lia. apply (mi_main Hinv).
      * rewrite set_thread_other by lia. apply (mi_producer Hinv).
      * intros id' Hid'. destruct (Nat.eq_dec id' id) as [-> | Hne].
        -- rewrite set_thread_same. exists n. now left.
        -- rewrite set_thread_other by lia. apply (mi_consumer Hinv Hid').
      * intros t' Ht'. unfold consumer_cnt in *.
        rewrite set_thread_other by lia.
        apply (mi_rest Hinv Ht').
      * intros x. rewrite <- (mi_count Hinv x). rewrite !count_in_flight.
        cbn [pool sbuf cout]. rewrite set_thread_other by lia.
        specialize (Hfm x). rewrite Hp, pending_of_consumer in Hfm.
        rewrite map_app, count_occ_app. simpl in Hfm |- *.
        unfold line in *. destruct (Z.eq_dec v x); lia.
      * apply Forall_app. split; [apply (mi_ids Hinv) |].
        constructor; [| constructor]. simpl.
        unfold consumer_cnt in Hid. lia.
      * apply (mi_cap Hinv).
Qed.

Lemma sys_exec_preserves (sched : list nat) : forall s s',
  main_inv s -> sys_exec sched s = Some s' -> main_inv s'.
Proof.
  induction sched as [| t sched IH]; intros s s' Hinv H.
  - now injection H as <-.
  - simpl in H. destruct (sys_step t s) as [s1 |] eqn:E; [| discriminate].
    eapply IH; [| exact H]. eapply sys_step_preserves; eauto.
Qed.

Local Transparent consumers counting.

Lemma counting_NoDup (i : Z) (n : nat) : NoDup (counting i n).
Proof.
  unfold counting. apply Finite.Injective_map_NoDup; [| apply seq_NoDup].
  intros a b H. lia.
Qed.

Lemma in_counting (i : Z) (n : nat) (x : Z) :
  In x (counting i n) <-> i <= x < i + Z.of_nat n.
Proof.
  unfold counting. rewrite in_map_iff. split.
  - intros (k & <- & Hk). apply in_seq in Hk. lia.
  - intros H. exists (Z.to_nat (x - i)). split; [lia |].
    apply in_seq. lia.
Qed.

(** X18 (no payload lost, none written twice).  Under every interleaving of
    the threads of [main], the values written so far, those popped and about
    to be written, those in the queue and those the producer has yet to push
    are together exactly 0, 1, ..., 31, each once.  So at most 32 lines are
    written, no value is written twice, every value written lies between 0
    and 31 and every id between 0 and 31; and the occupancy never exceeds
    the capacity 10. *)
Theorem main_conserves_payloads (sched : list nat) s :
  sys_exec sched main_system = Some s ->
  Permutation (in_flight s) (counting 0 32) /\
  NoDup (map snd (cout s)) /\
  (length (cout s) <= 32)%nat /\
  Forall (fun l : line => 0 <= fst l < 32 /\ 0 <= snd l < 32) (cout s) /\
  (occupancy (sbuf s) <= 10)%N.
Proof.
  intros H. apply (sys_exec_preserves _ main_inv_init) in H.
  assert (Hperm : Permutation (in_flight s) (counting 0 32)).
  { apply (Permutation_count_occ Z.eq_dec). apply (mi_count H). }
  assert (Hnd : NoDup (in_flight s)).
  { apply (Permutation_NoDup (Permutation_sym Hperm)). apply counting_NoDup. }
  split; [exact Hperm |].
  split; [unfold in_flight in Hnd; now apply NoDup_app_remove_r in Hnd |].
  split.
  { apply Permutation_length in Hperm. unfold in_flight in Hperm.
    rewrite length_app, length_map in Hperm.
    unfold counting in Hperm. rewrite length_map, length_seq in Hperm.
    unfold line in *. lia. }
  split.
  { pose proof (mi_ids H) as Hids. rewrite Forall_forall in Hids |- *.
    intros l Hl. split; [now apply Hids |].
    assert (Hin : In (snd l) (counting 0 32)).
    { apply (Permutation_in _ Hperm). unfold in_flight.
      apply in_or_app. left. now apply in_map. }
    apply in_counting in Hin. lia. }
  destruct (mi_cap H) as [Hle Hc]. unfold occupancy. now rewrite Hc in Hle.
Qed.

End MainFacts.

Section MainOutcomes.

Local Open Scope Z_scope.

(** X19 (the outcome of [main] depends on the scheduler).  There is an
    interleaving of the threads of [main] in which the 32 values are written
    and every thread returns with the buffer empty.  There is another, in
    which the producer thread only runs after [main] has pushed its markers
    (nothing but the two-second sleep stands against it), where every
    consumer has stopped on a marker, nothing is written, the producer is
    blocked in its eleventh [push] on the full buffer, and no thread can
    take a step any more. *)
Theorem main_outcome_depends_on_schedule :
  (exists s,
      sys_exec turn_schedule main_system = Some s /\
      cout s = map (fun i => (Z.of_nat i, Z.of_nat i)) (seq 0 32) /\
      q_ (sbuf s) = [] /\
      forall t, pool s t = Return) /\
  (exists s,
      sys_exec late_producer_schedule main_system = Some s /\
      cout s = [] /\
      q_ (sbuf s) = payloads (counting 0 10) /\
      pool s 1%nat = producer_from 10 22 /\
      (forall t, t <> 1%nat -> pool s t = Return) /\
      forall t, sys_step t s = None).
Proof.
  split.
  - eexists. split; [vm_compute; reflexivity |].
    split; [reflexivity |]. split; [reflexivity |].
    intros t. do 34 (destruct t as [| t]; [reflexivity |]). reflexivity.
  - eexists. split; [vm_compute; reflexivity |].
    split; [reflexivity |]. split; [reflexivity |].
    split; [reflexivity |]. split.
    + intros t Ht. destruct t as [| [| t]]; [reflexivity | congruence |].
      do 32 (destruct t as [| t]; [reflexivity |]). reflexivity.
    + intros t. do 34 (destruct t as [| t]; [reflexivity |]). reflexivity.
Qed.

End MainOutcomes.

(** * Concrete instances of the further properties *)

Section MoreInstances.

Local Open Scope Z_scope.

Lemma run_enabled_iff_counts_witness :
  run [Push (Some 1%Z); Pop; Push (Some 2%Z)] (@construct Z 1) <> None <->
  forall n,
    (pops (firstn n [Push (Some 1%Z); Pop; Push (Some 2%Z)]) <=
     length (q_ (@construct Z 1)) +
     pushes (firstn n [Push (Some 1%Z); Pop; Push (Some 2%Z)]))%nat /\
    (N.of_nat
       (length (q_ (@construct Z 1)) +
        pushes (firstn n [Push (Some 1%Z); Pop; Push (Some 2%Z)]) -
        pops (firstn n [Push (Some 1%Z); Pop; Push (Some 2%Z)]))
     <= cap_ (@construct Z 1))%N.
Proof.
  apply (@run_enabled_iff_counts Z [Push (Some 1%Z); Pop; Push (Some 2%Z)]
           (construct 1)).
  unfold q_size. simpl. lia.
Defined.

Lemma size_after_run_witness :
  (pops [Push (Some 1%Z); Push (@None Z); Pop] <=
   length (q_ (@construct Z 2)) +
   pushes [Push (Some 1%Z); Push (@None Z); Pop])%nat /\
  size (mkBuffer [@None Z] 2) =
    Some (N.of_nat (length (q_ (@construct Z 2)) +
                    pushes [Push (Some 1%Z); Push (@None Z); Pop] -
                    pops [Push (Some 1%Z); Push (@None Z); Pop]),
          mkBuffer [@None Z] 2).
Proof.
  apply (@size_after_run Z [Push (Some 1%Z); Push None; Pop] (construct 2)
           [Some 1%Z] (mkBuffer [None] 2)).
  reflexivity.
Defined.

Lemma push_then_pop_witness :
  bind (push (Some 7)) (fun _ => pop) (mkBuffer [Some 1] 2) =
    Some (hd (Some 7) [Some 1], mkBuffer (tl ([Some 1] ++ [Some 7])) 2) /\
  (q_ (mkBuffer [Some 1] 2) = [] ->
   bind (push (Some 7)) (fun _ => pop) (mkBuffer [Some 1] 2) =
     Some (Some 7, mkBuffer [Some 1] 2)).
Proof.
  apply (@push_then_pop Z (Some 7) (mkBuffer [Some 1] 2)).
  unfold occupancy, q_size. simpl. lia.
Defined.

Lemma consumer_stops_at_eos_witness :
  interp (consumer 3) (mkBuffer (payloads [5; 6] ++ None :: [Some 9]) 10) =
  Some (tagged 3 [5; 6], mkBuffer [Some 9] 10).
Proof.
  apply (consumer_stops_at_eos 3 [5; 6] [Some 9] 10). simpl. lia.
Defined.

Lemma consumer_stops_after_32_witness :
  interp (consumer 3)
    (mkBuffer (payloads (counting 0 32) ++ [None]) 40) =
  Some (tagged 3 (counting 0 32), mkBuffer [None] 40).
Proof.
  apply (consumer_stops_after_32 3 (counting 0 32) [None] 40). reflexivity.
Defined.

Lemma producer_alone_witness :
  (interp producer_prog (construct 10) <> None <->
   (q_size (@construct Z 10) + 32 <= cap_ (@construct Z 10))%N) /\
  ((q_size (@construct Z 10) + 32 <= cap_ (@construct Z 10))%N ->
   interp producer_prog (construct 10) =
   Some ([], mkBuffer (q_ (@construct Z 10) ++
                       payloads (map Z.of_nat (seq 0 32)))
               (cap_ (@construct Z 10)))).
Proof.
  apply (producer_alone (construct 10)). unfold q_size. simpl. lia.
Defined.

End MoreInstances.

Section MonitorInstances.

Lemma monitor_mutual_exclusion_witness :
  exists s : config Z,
    (forall t t',
        holds_producer_mtx (pcs s t) = true ->
        holds_producer_mtx (pcs s t') = true -> t = t') /\
    (forall t t',
        holds_consumer_mtx (pcs s t) = true ->
        holds_consumer_mtx (pcs s t') = true -> t = t').
Proof.
  eexists.
  eapply (@monitor_mutual_exclusion Z 2
            [Invoke 0 (CallPush (Some 1%Z)); Advance 0; Invoke 1 CallPop;
             Advance 1]).
  vm_compute. reflexivity.
Defined.







Lemma monitor_lost_wakeup_witness :
  exists ls (s : config Z),
    exec ([Invoke 1 CallPop; Advance 1; Advance 1] ++
          push_call 0 (Some 5%Z) ++ [Advance 1]) (init 1) = Some (ls, s) /\
    ops_of ls = [Push (Some 5%Z)] /\
    q_ (buf s) = [Some 5%Z] /\
    pcs s 0 = Idle /\
    pcs s 1 = PopWaiting /\
    producer_mtx_ s = None /\
    consumer_mtx_ s = None /\
    (forall t, advance t s = None) /\
    (forall t, t <> 1 -> spurious t s = None).
Proof.
  apply (@monitor_lost_wakeup Z 1 (Some 5%Z)). lia.
Defined.

Lemma main_conserves_payloads_witness :
  exists s : system,
    Permutation (in_flight s) (counting 0 32) /\
    NoDup (map snd (cout s)) /\
    length (cout s) <= 32 /\
    Forall (fun l : line => (0 <= fst l < 32)%Z /\ (0 <= snd l < 32)%Z)
      (cout s) /\
    (occupancy (sbuf s) <= 10)%N.
Proof.
  eexists.
  eapply (main_conserves_payloads [1; 2; 2]).
  vm_compute. reflexivity.
Defined.

End MonitorInstances.

Section ClientInstances.

Local Open Scope Z_scope.

Lemma capacity_one_alternates_witness :
  run [Push (Some 1); Pop; Push None; Pop] (@construct Z 1) <> None /\
  alternates true [Push (Some 1); Pop; Push None; @Pop Z] = true.
Proof.
  pose proof (@capacity_one_alternates Z [Push (Some 1); Pop; Push None; Pop])
    as [Hrun Halt].
  split; [apply Halt; reflexivity | apply Hrun; discriminate].
Defined.

Lemma consumer_blocks_iff_witness :
  interp (consumer 3) (mkBuffer [Some 5; Some 6] 10) = None /\
  (length [Some 5; Some 6] < 32)%nat /\
  forallb is_payload [Some 5; Some 6] = true.
Proof.
  pose proof (consumer_blocks_iff 3 (mkBuffer [Some 5; Some 6] 10))
    as [Hblocks Hshort].
  split; [apply Hshort; simpl; split; [lia | reflexivity] |].
  apply Hblocks. reflexivity.
Defined.

Lemma consumer_behaviour_witness :
  written (feed (consumer 3) [Some 5; None; Some 7]) = tagged 3 [5] /\
  sent (feed (consumer 3) [Some 5; None; Some 7]) = [] /\
  residual (feed (consumer 3) [Some 5; None; Some 7]) = Return.
Proof.
  destruct (consumer_behaviour 3 [Some 5; None; Some 7])
    as (Hw & Hs & _ & _ & _ & Hr & _).
  split; [exact Hw |]. split; [exact Hs |].
  apply Hr. simpl. lia.
Defined.

End ClientInstances.
